(** * SafeLibev: a thread-safe proxy around a libev loop

    Shallow embedding of [ext/common/SafeLibev.h] (Phusion Passenger) and the
    properties of its command queue: submission, draining, cancellation and
    command id allocation.

    Conventions of the embedding.
    - [unsigned int] values are [Z]; the wrap-around of the 32-bit counter and
      of the 31-bit bit-field [Command::id] is written out with [mod].
    - A [boost::function<void ()>] is a value of [Callback]: the empty
      function, a closure supplied by the caller (opaque, named by a tag), or
      one of the [boost::bind] expressions the class builds itself.
    - Calls that leave the class (libev, the condition variable, a caller's
      closure) are recorded, in order, in [events].
    - The [bool done] locals of blocked callers live in [flags], keyed by
      their address; the address is an argument [done] of the member
      function that declares the local.
    - A member function runs as one step, as under the lock [syncher]; one
      that would block in [cond.wait] returns [Waiting done] instead. The
      loop of [runCommands], which runs unlocked, is also given step by step,
      interleaved with the calls of other threads ([Machine]).
    - [onEventLoopThread] is the [pthread_equal] test; the calling thread is
      an argument [self] of the member functions that ask for it. *)

From stdpp Require Import base option list gmap.
From Stdlib Require Import ZArith Lia.

Local Open Scope Z_scope.

(** ** Data model *)

(** [typedef boost::function<void ()> Callback] *)
Inductive Callback : Type :=
| NullCallback
| Closure (tag : nat)
| BindRunAfter (timeout : Z) (callback : Callback)
| BindRunAndNotify (callback : Callback) (done : nat)
| BindStartWatcherAndNotify (watcher : nat) (done : nat)
| BindStopWatcherAndNotify (watcher : nat) (done : nat).

Definition is_null (cb : Callback) : bool :=
  match cb with
  | NullCallback => true
  | _ => false
  end.

(** [static const unsigned int MAX_COMMAND_ID = 268435455] *)
Definition MAX_COMMAND_ID : Z := 268435455.

Definition UINT_MODULUS : Z := 2 ^ 32.
Definition ID_FIELD_MODULUS : Z := 2 ^ 31.

Module Command.

(** [struct Command { Callback callback; unsigned int id: 31; bool canceled: 1; }] *)
Record t : Type := mk {
  callback : Callback;
  id : Z;
  canceled : bool
}.

(** [Command(unsigned int _id, const Callback &_callback)]: the id is stored
    in a 31-bit field. *)
Definition new (_id : Z) (_callback : Callback) : t :=
  {| callback := _callback;
     id := _id mod ID_FIELD_MODULUS;
     canceled := false |}.

(** [it->canceled = true] *)
Definition cancel (c : t) : t :=
  {| callback := callback c; id := id c; canceled := true |}.

End Command.

(** What the class does to the outside world. *)
Inductive Event : Type :=
| EvAsyncStart                              (* ev_async_start(loop, &async) *)
| EvAsyncStop                               (* ev_async_stop(loop, &async) *)
| EvAsyncSend                               (* ev_async_send(loop, &async) *)
| EvOnce (timeout : Z) (callback : Callback) (* ev_once(..., timeoutHandler, new Callback(callback)) *)
| EvCall (tag : nat)                        (* a caller's closure is invoked *)
| EvWatcherStart (watcher : nat)            (* watcher->set(loop); watcher->start() *)
| EvWatcherStop (watcher : nat)             (* watcher->stop() *)
| EvNotifyAll.                              (* cond.notify_all() *)

Record SafeLibev : Type := mkSafeLibev {
  loopThread : nat;
  commands : list Command.t;
  nextCommandId : Z;
  flags : gmap nat bool;
  events : list Event
}.

Definition set_loopThread (t : nat) (s : SafeLibev) : SafeLibev :=
  mkSafeLibev t (commands s) (nextCommandId s) (flags s) (events s).
Definition set_commands (l : list Command.t) (s : SafeLibev) : SafeLibev :=
  mkSafeLibev (loopThread s) l (nextCommandId s) (flags s) (events s).
Definition set_nextCommandId (n : Z) (s : SafeLibev) : SafeLibev :=
  mkSafeLibev (loopThread s) (commands s) n (flags s) (events s).
Definition set_flag (done : nat) (b : bool) (s : SafeLibev) : SafeLibev :=
  mkSafeLibev (loopThread s) (commands s) (nextCommandId s)
              (<[done := b]> (flags s)) (events s).
Definition emit (e : Event) (s : SafeLibev) : SafeLibev :=
  mkSafeLibev (loopThread s) (commands s) (nextCommandId s) (flags s)
              (events s ++ [e]).

(** ** Results of member functions *)

Inductive Error : Type :=
| AssertionFailed     (* assert(callback != NULL) *)
| BadFunctionCall.    (* an empty boost::function was called *)

Inductive Result (A : Type) : Type :=
| Ok (a : A) (s : SafeLibev)
| Fail (e : Error) (s : SafeLibev).
Arguments Ok {A} a s.
Arguments Fail {A} e s.

Definition state_of {A} (r : Result A) : SafeLibev :=
  match r with
  | Ok _ s => s
  | Fail _ s => s
  end.

Definition M (A : Type) : Type := SafeLibev -> Result A.

Definition ret {A} (a : A) : M A := fun s => Ok a s.
Definition throw {A} (e : Error) : M A := fun s => Fail e s.
Definition bind {A B} (m : M A) (k : A -> M B) : M B :=
  fun s =>
    match m s with
    | Ok a s' => k a s'
    | Fail e s' => Fail e s'
    end.
Definition modify (f : SafeLibev -> SafeLibev) : M unit :=
  fun s => Ok tt (f s).
Definition assert (b : bool) : M unit :=
  fun s => if b then Ok tt s else Fail AssertionFailed s.

Notation "x <- m ;; k" := (bind m (fun x => k))
  (at level 100, m at next level, right associativity).
Notation "m ;; k" := (bind m (fun _ => k))
  (at level 100, right associativity).

(** How a [void] member function ends: it returns, or its caller sits in
    [while (!done) cond.wait(l)]. *)
Inductive Completion : Type :=
| Returned
| Waiting (done : nat).

(** ** Private member functions *)

(** [boost::unique_lock l(syncher); *done = true; cond.notify_all();] *)
Definition notifyDone (done : nat) : M unit :=
  modify (set_flag done true) ;; modify (emit EvNotifyAll).

(** [runAfter]: [assert(callback != NULL); ev_once(loop, -1, 0, timeout / 1000.0,
    timeoutHandler, new Callback(callback));] *)
Definition runAfter (timeout : Z) (callback : Callback) : M unit :=
  assert (negb (is_null callback)) ;;
  modify (emit (EvOnce timeout callback)).

(** [callback()] for each shape a callback can have: an empty function
    throws [boost::bad_function_call]; a caller's closure runs; a bound
    member function runs with the arguments bound to it. *)
Fixpoint invoke (callback : Callback) : M unit :=
  match callback with
  | NullCallback => throw BadFunctionCall
  | Closure tag => modify (emit (EvCall tag))
  | BindRunAfter timeout cb => runAfter timeout cb
  | BindRunAndNotify cb done => invoke cb ;; notifyDone done
  | BindStartWatcherAndNotify w done =>
      modify (emit (EvWatcherStart w)) ;; notifyDone done
  | BindStopWatcherAndNotify w done =>
      modify (emit (EvWatcherStop w)) ;; notifyDone done
  end.

(** [runAndNotify]: the call through the pointer [callback], then
    [boost::unique_lock l(syncher); *done = true; cond.notify_all();] *)
Definition runAndNotify (callback : Callback) (done : nat) : M unit :=
  invoke callback ;; notifyDone done.

(** [watcher->set(loop); watcher->start();] and the notification. *)
Definition startWatcherAndNotify (watcher done : nat) : M unit :=
  modify (emit (EvWatcherStart watcher)) ;; notifyDone done.

(** [watcher->stop();] and the notification. *)
Definition stopWatcherAndNotify (watcher done : nat) : M unit :=
  modify (emit (EvWatcherStop watcher)) ;; notifyDone done.

(** [timeoutHandler]: the heap copy of the callback is called once. *)
Definition timeoutHandler (callback : Callback) : M unit :=
  invoke callback.

(** The body of the loop of [runCommands]:
    [if (!it->canceled) { it->callback(); }] *)
Definition iteration (it : Command.t) : M unit :=
  if negb (Command.canceled it) then invoke (Command.callback it) else ret tt.

(** The loop of [runCommands] over its local copy of the vector. *)
Fixpoint runLoop (cmds : list Command.t) : M unit :=
  match cmds with
  | [] => ret tt
  | it :: rest => iteration it ;; runLoop rest
  end.

(** The locked part of [runCommands]: copy the vector, clear the member. *)
Definition drain (s : SafeLibev) : list Command.t * SafeLibev :=
  (commands s, set_commands [] s).

(** [runCommands]: the locked copy-and-clear, then the loop over the copy. *)
Definition runCommands : M unit :=
  fun s =>
    let '(cmds, s1) := drain s in
    runLoop cmds s1.

(** [asyncHandler]: [self->runCommands()] *)
Definition asyncHandler : M unit := runCommands.

(** [if (nextCommandId == MAX_COMMAND_ID) nextCommandId = 1;
    else nextCommandId++;] on a 32-bit [unsigned int]. *)
Definition incNextCommandId (s : SafeLibev) : SafeLibev :=
  if nextCommandId s =? MAX_COMMAND_ID
  then set_nextCommandId 1 s
  else set_nextCommandId ((nextCommandId s + 1) mod UINT_MODULUS) s.

(** [commands.push_back(Command(nextCommandId, callback))] *)
Definition push_back (callback : Callback) (s : SafeLibev) : SafeLibev :=
  set_commands (commands s ++ [Command.new (nextCommandId s) callback]) s.

(** ** Public member functions *)

(** [SafeLibev(struct ev_loop *loop)], constructed by thread [self]. *)
Definition SafeLibev_new (self : nat) : SafeLibev :=
  {| loopThread := self;
     commands := [];
     nextCommandId := 1;
     flags := ∅;
     events := [EvAsyncStart] |}.

(** [destroy]: [ev_async_stop(loop, &async)] *)
Definition destroy : M unit := modify (emit EvAsyncStop).

(** [setCurrentThread]: [loopThread = pthread_self()] *)
Definition setCurrentThread (self : nat) : M unit :=
  modify (set_loopThread self).

Definition getCurrentThread (s : SafeLibev) : nat := loopThread s.

(** [pthread_equal(pthread_self(), loopThread)] *)
Definition onEventLoopThread (self : nat) (s : SafeLibev) : bool :=
  Nat.eqb self (loopThread s).

(** The submission shared by [start], [stop] and [runSync]:
    [bool done = false; commands.push_back(...); incNextCommandId();
     ev_async_send(loop, &async); while (!done) cond.wait(l);] *)
Definition submitAndWait (callback : Callback) (done : nat) : M Completion :=
  modify (set_flag done false) ;;
  modify (push_back callback) ;;
  modify incNextCommandId ;;
  modify (emit EvAsyncSend) ;;
  ret (Waiting done).

(** [start]: on the loop thread [watcher.set(loop); watcher.start();],
    elsewhere the submission of [startWatcherAndNotify]. *)
Definition start (self : nat) (watcher done : nat) : M Completion :=
  fun s =>
    if onEventLoopThread self s
    then (modify (emit (EvWatcherStart watcher)) ;; ret Returned) s
    else submitAndWait (BindStartWatcherAndNotify watcher done) done s.

(** [stop]: on the loop thread [watcher.stop();], elsewhere the submission
    of [stopWatcherAndNotify]. *)
Definition stop (self : nat) (watcher done : nat) : M Completion :=
  fun s =>
    if onEventLoopThread self s
    then (modify (emit (EvWatcherStop watcher)) ;; ret Returned) s
    else submitAndWait (BindStopWatcherAndNotify watcher done) done s.

(** [runSync]: the assertion, then the submission of
    [boost::bind(&SafeLibev::runAndNotify, this, &callback, &done)]. *)
Definition runSync (callback : Callback) (done : nat) : M Completion :=
  assert (negb (is_null callback)) ;;
  submitAndWait (BindRunAndNotify callback done) done.

(** [run]: [assert(callback != NULL); if (onEventLoopThread()) callback();
    else runSync(callback);] *)
Definition run (self : nat) (callback : Callback) (done : nat) : M Completion :=
  assert (negb (is_null callback)) ;;
  fun s =>
    if onEventLoopThread self s
    then (invoke callback ;; ret Returned) s
    else runSync callback done s.

(** [runLater]: under the lock, [push_back], [result = nextCommandId],
    [incNextCommandId()]; then [ev_async_send]; [return result]. *)
Definition runLater (callback : Callback) : M Z :=
  assert (negb (is_null callback)) ;;
  modify (push_back callback) ;;
  fun s =>
    let result := nextCommandId s in
    (modify incNextCommandId ;;
     modify (emit EvAsyncSend) ;;
     ret result) s.

(** [runAfterTS]: [runAfter(timeout, callback)] on the loop thread, else
    [runLater(boost::bind(&SafeLibev::runAfter, this, timeout, callback))]. *)
Definition runAfterTS (self : nat) (timeout : Z) (callback : Callback) : M unit :=
  assert (negb (is_null callback)) ;;
  fun s =>
    if onEventLoopThread self s
    then runAfter timeout callback s
    else (runLater (BindRunAfter timeout callback) ;; ret tt) s.

(** The scan of [cancelCommand]: the first command whose id matches is
    marked, and the scan stops there. *)
Fixpoint cancelScan (id : Z) (cmds : list Command.t) : bool * list Command.t :=
  match cmds with
  | [] => (false, [])
  | it :: rest =>
      if Command.id it =? id
      then (true, Command.cancel it :: rest)
      else let '(found, rest') := cancelScan id rest in (found, it :: rest')
  end.

(** [cancelCommand]: [if (id == 0) return false;], then the scan under the
    lock. *)
Definition cancelCommand (id : Z) (s : SafeLibev) : bool * SafeLibev :=
  if id =? 0
  then (false, s)
  else let '(found, cmds) := cancelScan id (commands s) in
       (found, set_commands cmds s).

(** ** Reachable states and the calls that lead to them *)

(** A call into the object, by any thread, or a wake-up of the loop. *)
Inductive Call : Type :=
| CallStart (self watcher done : nat)
| CallStop (self watcher done : nat)
| CallRun (self : nat) (callback : Callback) (done : nat)
| CallRunSync (callback : Callback) (done : nat)
| CallRunAfter (timeout : Z) (callback : Callback)
| CallRunAfterTS (self : nat) (timeout : Z) (callback : Callback)
| CallRunLater (callback : Callback)
| CallCancelCommand (id : Z)
| CallSetCurrentThread (self : nat)
| CallDestroy
| CallAsyncHandler.

(** The state a call leaves behind, whether it returned or failed. *)
Definition perform (c : Call) (s : SafeLibev) : SafeLibev :=
  match c with
  | CallStart self w done => state_of (start self w done s)
  | CallStop self w done => state_of (stop self w done s)
  | CallRun self cb done => state_of (run self cb done s)
  | CallRunSync cb done => state_of (runSync cb done s)
  | CallRunAfter timeout cb => state_of (runAfter timeout cb s)
  | CallRunAfterTS self timeout cb => state_of (runAfterTS self timeout cb s)
  | CallRunLater cb => state_of (runLater cb s)
  | CallCancelCommand id => (cancelCommand id s).2
  | CallSetCurrentThread self => state_of (setCurrentThread self s)
  | CallDestroy => state_of (destroy s)
  | CallAsyncHandler => state_of (asyncHandler s)
  end.

Definition performAll (cs : list Call) (s : SafeLibev) : SafeLibev :=
  foldl (fun st c => perform c st) s cs.

Inductive reachable : SafeLibev -> Prop :=
| reachable_new self : reachable (SafeLibev_new self)
| reachable_perform c s : reachable s -> reachable (perform c s).

(** ** Notions used to state the properties *)

(** The position at which the scan of [cancelCommand] stops. *)
Fixpoint findCommand (id : Z) (cmds : list Command.t) : option nat :=
  match cmds with
  | [] => None
  | it :: rest =>
      if Command.id it =? id then Some 0%nat
      else S <$> findCommand id rest
  end.

(** The value [incNextCommandId] stores, as a function of the old one. *)
Definition succId (n : Z) : Z :=
  if n =? MAX_COMMAND_ID then 1 else (n + 1) mod UINT_MODULUS.

(** [n] ids handed out in a row, starting with [i]. *)
Fixpoint idsFrom (i : Z) (n : nat) : list Z :=
  match n with
  | O => []
  | S n' => i :: idsFrom (succId i) n'
  end.

Definition validId (n : Z) : Prop := 1 <= n <= MAX_COMMAND_ID.

(** The callbacks of the commands the loop of [runCommands] calls: those
    not canceled, in the order of the vector. *)
Definition liveCallbacks (cmds : list Command.t) : list Callback :=
  Command.callback <$>
    filter (fun c => Command.canceled c = false) cmds.

(** Calling a list of callbacks one after the other. *)
Fixpoint invokeAll (cbs : list Callback) : M unit :=
  match cbs with
  | [] => ret tt
  | cb :: rest => invoke cb ;; invokeAll rest
  end.

(** Whether calling [cb], or a timer it arms, can call the caller's closure
    [tag]. *)
Fixpoint mentions (tag : nat) (cb : Callback) : bool :=
  match cb with
  | NullCallback => false
  | Closure t => Nat.eqb t tag
  | BindRunAfter _ cb' => mentions tag cb'
  | BindRunAndNotify cb' _ => mentions tag cb'
  | BindStartWatcherAndNotify _ _ => false
  | BindStopWatcherAndNotify _ _ => false
  end.

Definition callMentions (tag : nat) (c : Call) : bool :=
  match c with
  | CallRun _ cb _ => mentions tag cb
  | CallRunSync cb _ => mentions tag cb
  | CallRunAfter _ cb => mentions tag cb
  | CallRunAfterTS _ _ cb => mentions tag cb
  | CallRunLater cb => mentions tag cb
  | _ => false
  end.

Definition eventMentions (tag : nat) (e : Event) : bool :=
  match e with
  | EvCall t => Nat.eqb t tag
  | EvOnce _ cb => mentions tag cb
  | _ => false
  end.

Definition quiet (tag : nat) (evs : list Event) : Prop :=
  Forall (fun e => eventMentions tag e = false) evs.

(** [s'] continues [s] with events that do not involve closure [tag]. *)
Definition extends (tag : nat) (s s' : SafeLibev) : Prop :=
  exists evs, events s' = events s ++ evs /\ quiet tag evs.

(** A command that will not call closure [tag] when drained. *)
Definition harmless (tag : nat) (c : Command.t) : Prop :=
  mentions tag (Command.callback c) = true -> Command.canceled c = true.

(** ** The loop thread and the other threads, interleaved

    [runCommands] holds the lock only while it copies and clears the vector;
    the loop over the copy runs unlocked, so calls of other threads fall
    between its iterations. [batch] is what is left of the copy. *)
Record Machine : Type := mkMachine {
  obj : SafeLibev;
  batch : list Command.t
}.

Inductive Label : Type :=
| LCall (c : Call)     (* a whole member function, under the lock *)
| LDrainBegin          (* runCommands: copy and clear *)
| LDrainNext.          (* runCommands: one iteration of the loop *)

Definition mstep (l : Label) (m : Machine) : Machine :=
  match l with
  | LCall c => mkMachine (perform c (obj m)) (batch m)
  | LDrainBegin =>
      match batch m with
      | [] => let '(cmds, s1) := drain (obj m) in mkMachine s1 cmds
      | _ :: _ => m
      end
  | LDrainNext =>
      match batch m with
      | [] => m
      | it :: rest =>
          match iteration it (obj m) with
          | Ok _ s' => mkMachine s' rest
          | Fail _ s' => mkMachine s' []
          end
      end
  end.

Definition mrun (ls : list Label) (m : Machine) : Machine :=
  foldl (fun st l => mstep l st) m ls.

Definition labelMentions (tag : nat) (l : Label) : bool :=
  match l with
  | LCall c => callMentions tag c
  | _ => false
  end.

(** ** Concrete states used in examples *)

(** One command submitted by [runLater], then canceled. *)
Definition canceledOnce : SafeLibev :=
  (cancelCommand 1 (state_of (runLater (Closure 7) (SafeLibev_new 0)))).2.

(** Three commands submitted by [runLater], the second one canceled. *)
Definition threePending : SafeLibev :=
  performAll [CallRunLater (Closure 10); CallRunLater (Closure 11);
              CallRunLater (Closure 12); CallCancelCommand 2]
             (SafeLibev_new 0).

(** No pending command and no command of the batch in flight will call the
    closure. *)
Definition noLiveCarrier (tag : nat) (m : Machine) : Prop :=
  Forall (harmless tag) (commands (obj m)) /\
  Forall (harmless tag) (batch m).

(** The pending ids were handed out in a row, the counter comes next. *)
Definition chained (s : SafeLibev) : Prop :=
  exists i,
    validId i /\
    Command.id <$> commands s = idsFrom i (length (commands s)) /\
    nextCommandId s = Nat.iter (length (commands s)) succId i.

(** Three commands are pending; a fourth is submitted, a drain runs, and the
    second one is canceled once more after the drain. *)
Definition raceStart : Machine :=
  mkMachine
    (performAll [CallRunLater (Closure 10); CallRunLater (Closure 11);
                 CallRunLater (Closure 12)] (SafeLibev_new 0))
    [].

Definition raceLabels : list Label :=
  [LCall (CallRunLater (Closure 13)); LDrainBegin; LDrainNext; LDrainNext;
   LCall (CallRunLater (Closure 14)); LDrainNext; LDrainNext;
   LCall (CallCancelCommand 2); LCall CallAsyncHandler].

(** ** Further notions: callbacks that cannot throw, calls of a caller *)

(** Calling [cb] reaches no empty function and no failing assertion. *)
Fixpoint sound (cb : Callback) : bool :=
  match cb with
  | NullCallback => false
  | Closure _ => true
  | BindRunAfter _ cb' => negb (is_null cb')
  | BindRunAndNotify cb' _ => sound cb'
  | BindStartWatcherAndNotify _ _ => true
  | BindStopWatcherAndNotify _ _ => true
  end.

(** What a caller can hand over: nothing, or a closure of its own. *)
Definition userCallback (cb : Callback) : bool :=
  match cb with
  | NullCallback => true
  | Closure _ => true
  | _ => false
  end.

Definition userCall (c : Call) : bool :=
  match c with
  | CallRun _ cb _ => userCallback cb
  | CallRunSync cb _ => userCallback cb
  | CallRunAfter _ cb => userCallback cb
  | CallRunAfterTS _ _ cb => userCallback cb
  | CallRunLater cb => userCallback cb
  | _ => true
  end.

Definition noDrain (c : Call) : bool :=
  match c with
  | CallAsyncHandler => false
  | _ => true
  end.

(** [runLater] of one closure after the other. *)
Definition runLaterAll (tags : list nat) : list Call :=
  (fun t => CallRunLater (Closure t)) <$> tags.

(** ** The thread test with thread-local storage

    With [OXT_THREAD_LOCAL_KEYWORD_SUPPORTED], [setCurrentThread] also stores
    [this] in the thread-local [oxt::thread_signature] of the calling thread,
    and [onEventLoopThread] reads the caller's copy first. The variable is
    given per thread; [None] is [NULL]. *)
Module Signature.

Record t : Type := mk {
  loopThread : nat;
  thread_signature : nat -> option nat
}.

(** [loopThread = pthread_self(); oxt::thread_signature = this;] *)
Definition setCurrentThread (this self : nat) (a : t) : t :=
  {| loopThread := self;
     thread_signature :=
       fun th => if Nat.eqb th self then Some this else thread_signature a th |}.

(** [sig = oxt::thread_signature; if (sig == NULL) return
    pthread_equal(pthread_self(), loopThread); else return sig == this;] *)
Definition onEventLoopThread (this self : nat) (a : t) : bool :=
  match thread_signature a self with
  | None => Nat.eqb self (loopThread a)
  | Some sig => Nat.eqb sig this
  end.

(** The test without thread-local storage. *)
Definition pthreadTest (self : nat) (a : t) : bool :=
  Nat.eqb self (loopThread a).

End Signature.

(** ** Further states and notions used in examples *)

Definition relocates (c : Call) : bool :=
  match c with
  | CallSetCurrentThread _ => true
  | _ => false
  end.

(** The counter has come round to the id of the oldest pending command. *)
Definition reusedId : SafeLibev := set_nextCommandId 1 threePending.

(** A vector whose second command holds an empty function. *)
Definition emptyInside : SafeLibev :=
  mkSafeLibev 0
    [Command.mk (Closure 1) 1 false; Command.mk NullCallback 2 false;
     Command.mk (Closure 3) 3 false]
    4 ∅ [EvAsyncStart].

(** * Properties *)

(** ** Basic facts *)

Ltac unfold_M :=
  unfold runLater, runSync, run, runAfterTS, runAfter, start, stop,
    submitAndWait, runAndNotify, notifyDone, setCurrentThread, destroy,
    bind, assert, modify, ret, throw in *.

Lemma is_null_false (cb : Callback) : cb ≠ NullCallback -> is_null cb = false.
Proof. destruct cb; simpl; congruence. Qed.

Lemma set_commands_same (s : SafeLibev) : set_commands (commands s) s = s.
Proof. destruct s; reflexivity. Qed.

(** The scan fails exactly when no command carries the id. *)
Lemma cancelScan_not_found (id : Z) (cmds : list Command.t) :
  Forall (fun c => Command.id c ≠ id) cmds ->
  cancelScan id cmds = (false, cmds).
Proof.
  induction 1 as [|c rest Hc _ IH]; simpl; [reflexivity|].
  apply Z.eqb_neq in Hc. rewrite Hc, IH. reflexivity.
Qed.

(** The scan succeeds at the first command that carries the id. *)
Lemma cancelScan_found (id : Z) (l1 l2 : list Command.t) (c : Command.t) :
  Forall (fun c' => Command.id c' ≠ id) l1 ->
  Command.id c = id ->
  cancelScan id (l1 ++ c :: l2) = (true, l1 ++ Command.cancel c :: l2).
Proof.
  intros Hl1 Hc. induction Hl1 as [|c' rest Hc' _ IH]; simpl.
  - apply Z.eqb_eq in Hc. rewrite Hc. reflexivity.
  - apply Z.eqb_neq in Hc'. rewrite Hc', IH. reflexivity.
Qed.

(** Every list splits at the first command with a given id, if there is one. *)
Lemma first_with_id (id : Z) (cmds : list Command.t) :
  Forall (fun c => Command.id c ≠ id) cmds \/
  exists l1 c l2,
    cmds = l1 ++ c :: l2 /\
    Forall (fun c' => Command.id c' ≠ id) l1 /\
    Command.id c = id.
Proof.
  induction cmds as [|c rest IH].
  - left. constructor.
  - destruct (Z.eq_dec (Command.id c) id) as [Heq|Hne].
    + right. exists [], c, rest. repeat split; [constructor | exact Heq].
    + destruct IH as [Hall|(l1 & c0 & l2 & -> & Hl1 & Hc0)].
      * left. constructor; assumption.
      * right. exists (c :: l1), c0, l2. repeat split; [|exact Hc0].
        constructor; assumption.
Qed.

Lemma cancelScan_true_iff (id : Z) (cmds : list Command.t) :
  (cancelScan id cmds).1 = true <->
  exists c, c ∈ cmds /\ Command.id c = id.
Proof.
  destruct (first_with_id id cmds) as [Hall|(l1 & c & l2 & -> & Hl1 & Hc)].
  - rewrite cancelScan_not_found by assumption. simpl. split; [discriminate|].
    intros (c & Hin & Hc). rewrite Forall_forall in Hall.
    exfalso. exact (Hall c Hin Hc).
  - rewrite cancelScan_found by assumption. simpl. split; [|reflexivity].
    intros _. exists c. split; [|exact Hc].
    apply elem_of_app. right. apply elem_of_cons. left. reflexivity.
Qed.

(** The scan, described by the position it stops at. *)
Lemma cancelScan_findCommand (id : Z) (cmds : list Command.t) :
  cancelScan id cmds =
  match findCommand id cmds with
  | Some k => (true, alter Command.cancel k cmds)
  | None => (false, cmds)
  end.
Proof.
  induction cmds as [|c rest IH]; simpl; [reflexivity|].
  destruct (Command.id c =? id); [reflexivity|].
  rewrite IH. destruct (findCommand id rest); reflexivity.
Qed.

Lemma findCommand_Some (id : Z) (cmds : list Command.t) (k : nat) :
  findCommand id cmds = Some k <->
  exists c, cmds !! k = Some c /\ Command.id c = id /\
    forall j c', (j < k)%nat -> cmds !! j = Some c' -> Command.id c' ≠ id.
Proof.
  revert k. induction cmds as [|c rest IH]; intros k; simpl.
  - split; [discriminate|]. intros (c & Hc & _). discriminate.
  - destruct (Z.eqb_spec (Command.id c) id) as [Heq|Hne].
    + split.
      * intros [= <-]. exists c. repeat split; [exact Heq|]. intros; lia.
      * intros (c0 & Hk & Hid & Hfirst). destruct k as [|k]; [reflexivity|].
        exfalso. apply (Hfirst 0%nat c); [lia|reflexivity|exact Heq].
    + rewrite fmap_Some. split.
      * intros (k' & Hf & ->). apply IH in Hf as (c0 & Hk & Hid & Hfirst).
        exists c0. repeat split; [exact Hk|exact Hid|].
        intros [|j] c' Hj Hc'; simpl in Hc'.
        -- injection Hc' as <-. exact Hne.
        -- apply (Hfirst j); [lia|exact Hc'].
      * intros (c0 & Hk & Hid & Hfirst). destruct k as [|k].
        -- simpl in Hk. injection Hk as <-. contradiction.
        -- exists k. split; [|reflexivity]. apply IH. exists c0.
           repeat split; [exact Hk|exact Hid|].
           intros j c' Hj Hc'. apply (Hfirst (S j)); [lia|exact Hc'].
Qed.

Lemma findCommand_None (id : Z) (cmds : list Command.t) :
  findCommand id cmds = None <->
  forall c, c ∈ cmds -> Command.id c ≠ id.
Proof.
  induction cmds as [|c rest IH]; simpl.
  - split; [|reflexivity]. intros _ c Hc. inversion Hc.
  - destruct (Z.eqb_spec (Command.id c) id) as [Heq|Hne].
    + split; [discriminate|]. intros H. exfalso.
      apply (H c); [left|exact Heq].
    + rewrite fmap_None, IH. split.
      * intros H c' Hc'.
        apply elem_of_cons in Hc' as [->|Hc']; [exact Hne|]. apply H, Hc'.
      * intros H c' Hc'. apply H. right. exact Hc'.
Qed.

(** A member of the vector makes the scan stop, at or before its place. *)
Lemma findCommand_of_member (cmds : list Command.t) (k : nat) (c : Command.t) :
  cmds !! k = Some c ->
  exists j, findCommand (Command.id c) cmds = Some j /\ (j <= k)%nat.
Proof.
  revert k. induction cmds as [|c0 rest IH]; intros k Hk; [discriminate|].
  simpl. destruct (Z.eqb_spec (Command.id c0) (Command.id c)) as [Heq|Hne].
  - exists 0%nat. split; [reflexivity|lia].
  - destruct k as [|k]; simpl in Hk.
    + injection Hk as ->. contradiction.
    + destruct (IH k Hk) as (j & -> & Hj). exists (S j). split; [reflexivity|lia].
Qed.

(** Where ids are pairwise distinct, the scan stops exactly at the command. *)
Lemma findCommand_NoDup (cmds : list Command.t) (k : nat) (c : Command.t) :
  NoDup (Command.id <$> cmds) ->
  cmds !! k = Some c ->
  findCommand (Command.id c) cmds = Some k.
Proof.
  intros Hnd Hk. destruct (findCommand_of_member cmds k c Hk) as (j & Hj & Hle).
  rewrite Hj. f_equal.
  apply findCommand_Some in Hj as (c' & Hj & Hid & _).
  apply (NoDup_lookup _ j k (Command.id c) Hnd).
  - rewrite list_lookup_fmap, Hj. simpl. congruence.
  - rewrite list_lookup_fmap, Hk. reflexivity.
Qed.

Lemma findCommand_alter_cancel (id : Z) (k : nat) (cmds : list Command.t) :
  findCommand id (alter Command.cancel k cmds) = findCommand id cmds.
Proof.
  revert k. induction cmds as [|c rest IH]; intros [|k]; simpl;
    try reflexivity.
  specialize (IH k). unfold alter in IH. rewrite IH. reflexivity.
Qed.

Lemma alter_cancel_twice (k : nat) (cmds : list Command.t) :
  alter Command.cancel k (alter Command.cancel k cmds) =
  alter Command.cancel k cmds.
Proof.
  revert k. induction cmds as [|c rest IH]; intros [|k]; simpl;
    try reflexivity.
  f_equal. specialize (IH k). unfold alter in IH. exact IH.
Qed.

Lemma alter_cancel_insert (k : nat) (cmds : list Command.t) (c : Command.t) :
  cmds !! k = Some c ->
  alter Command.cancel k cmds = <[k := Command.cancel c]> cmds.
Proof.
  revert k. induction cmds as [|c0 rest IH]; intros [|k] Hk; simpl in *;
    try discriminate.
  - injection Hk as ->. reflexivity.
  - f_equal. apply (IH k Hk).
Qed.

(** [cancelCommand], described by the position the scan stops at. *)
Lemma cancelCommand_findCommand (id : Z) (s : SafeLibev) :
  id ≠ 0 ->
  cancelCommand id s =
  match findCommand id (commands s) with
  | Some k => (true, set_commands (alter Command.cancel k (commands s)) s)
  | None => (false, s)
  end.
Proof.
  intros Hid. unfold cancelCommand. apply Z.eqb_neq in Hid. rewrite Hid.
  rewrite cancelScan_findCommand.
  destruct (findCommand id (commands s)); [reflexivity|].
  rewrite set_commands_same. reflexivity.
Qed.

(** ** Cancellation *)

(** C4: [cancelCommand(0)] returns false at once and leaves the object as it
    was, whatever the vector holds. *)
Theorem cancelCommand_zero (s : SafeLibev) :
  cancelCommand 0 s = (false, s).
Proof. reflexivity. Qed.

(** C2, as the code has it: for a nonzero id, [cancelCommand] returns true
    exactly when the vector holds a command with that id, canceled already or
    not; it then marks the first such command and touches nothing else; when
    no command has the id it returns false and the object is unchanged. *)
Theorem cancelCommand_true_iff_present (id : Z) (s : SafeLibev) :
  id ≠ 0 ->
  ((cancelCommand id s).1 = true <->
   exists c, c ∈ commands s /\ Command.id c = id) /\
  (forall k c,
     commands s !! k = Some c ->
     Command.id c = id ->
     (forall j c', (j < k)%nat -> commands s !! j = Some c' ->
                   Command.id c' ≠ id) ->
     cancelCommand id s =
     (true, set_commands (<[k := Command.cancel c]> (commands s)) s)) /\
  ((forall c, c ∈ commands s -> Command.id c ≠ id) ->
   cancelCommand id s = (false, s)).
Proof.
  intros Hid. repeat split.
  - unfold cancelCommand. apply Z.eqb_neq in Hid. rewrite Hid.
    destruct (cancelScan id (commands s)) as [found cmds] eqn:Hscan.
    simpl. intros ->. apply cancelScan_true_iff. rewrite Hscan. reflexivity.
  - intros Hex. apply cancelScan_true_iff in Hex.
    unfold cancelCommand. apply Z.eqb_neq in Hid. rewrite Hid.
    destruct (cancelScan id (commands s)) as [found cmds]. exact Hex.
  - intros k c Hk Hc Hfirst.
    rewrite cancelCommand_findCommand by exact Hid.
    assert (findCommand id (commands s) = Some k) as ->.
    { apply findCommand_Some. exists c. auto. }
    rewrite (alter_cancel_insert _ _ _ Hk). reflexivity.
  - intros Hnone. rewrite cancelCommand_findCommand by exact Hid.
    apply findCommand_None in Hnone. rewrite Hnone. reflexivity.
Qed.

Lemma cancelCommand_true_iff_present_witness :
  (cancelCommand 2 threePending).1 = true <->
  exists c, c ∈ commands threePending /\ Command.id c = 2.
Proof.
  apply (cancelCommand_true_iff_present 2 threePending). lia.
Defined.

(** C2, as the specification words it, fails: the one pending command with
    id 1 is already canceled, and [cancelCommand(1)] still returns true. *)
Lemma cancelCommand_true_on_canceled :
  (cancelCommand 1 canceledOnce).1 = true /\
  ~ (exists c, c ∈ commands canceledOnce /\ Command.id c = 1 /\
               Command.canceled c = false).
Proof.
  split; [reflexivity|].
  intros (c & Hin & _ & Hlive).
  change (commands canceledOnce)
    with [Command.mk (Closure 7) 1 true] in Hin.
  apply list_elem_of_singleton in Hin. subst c. discriminate Hlive.
Qed.

(** C10: canceling a pending command twice, with no drain in between,
    returns true both times; the second call changes nothing at all, so the
    command marked by the first call stays marked and no other command is
    touched. The marked command is the first one with that id, which is the
    command itself wherever ids are pairwise distinct. *)
Theorem cancelCommand_twice (s : SafeLibev) (k : nat) (c : Command.t) :
  commands s !! k = Some c ->
  Command.id c ≠ 0 ->
  let r1 := cancelCommand (Command.id c) s in
  let r2 := cancelCommand (Command.id c) r1.2 in
  r1.1 = true /\ r2.1 = true /\ r2.2 = r1.2 /\
  exists j,
    findCommand (Command.id c) (commands s) = Some j /\ (j <= k)%nat /\
    commands r2.2 = alter Command.cancel j (commands s) /\
    (NoDup (Command.id <$> commands s) ->
     j = k /\ commands r2.2 !! k = Some (Command.cancel c)).
Proof.
  intros Hk Hid r1 r2. subst r1 r2.
  destruct (findCommand_of_member _ _ _ Hk) as (j & Hj & Hle).
  rewrite (cancelCommand_findCommand _ s Hid), Hj. simpl.
  rewrite (cancelCommand_findCommand _ _ Hid). simpl.
  rewrite findCommand_alter_cancel, Hj. simpl.
  rewrite alter_cancel_twice.
  split; [reflexivity|]. split; [reflexivity|]. split; [reflexivity|].
  exists j. split; [reflexivity|]. split; [exact Hle|].
  split; [reflexivity|].
  intros Hnd. pose proof (findCommand_NoDup _ _ _ Hnd Hk) as Hj'.
  assert (j = k) as -> by congruence. split; [reflexivity|].
  rewrite list_lookup_alter_eq, Hk. reflexivity.
Qed.

Lemma cancelCommand_twice_witness :
  let r1 := cancelCommand 3 threePending in
  let r2 := cancelCommand 3 r1.2 in
  r1.1 = true /\ r2.1 = true /\ r2.2 = r1.2 /\
  commands r2.2 !! 2%nat = Some (Command.mk (Closure 12) 3 true).
Proof.
  intros r1 r2. subst r1 r2.
  destruct (cancelCommand_twice threePending 2
              (Command.mk (Closure 12) 3 false) eq_refl)
    as (H1 & H2 & H3 & j & _ & _ & _ & Hnd); [simpl; lia|].
  split; [exact H1|]. split; [exact H2|]. split; [exact H3|].
  apply Hnd. apply NoDup_cons. split; [|apply NoDup_cons; split;
    [|apply NoDup_singleton]].
  - intros Hin. apply elem_of_cons in Hin as [Hin|Hin]; [discriminate|].
    apply list_elem_of_singleton in Hin. discriminate.
  - intros Hin. apply list_elem_of_singleton in Hin. discriminate.
Defined.

(** ** Empty callbacks *)

(** C9: each of [run], [runSync], [runAfter], [runAfterTS] and [runLater]
    stops at its assertion when the callback is empty: nothing is queued,
    nothing is sent to the loop, no flag is touched. *)
Theorem null_callback_asserts
    (self done : nat) (timeout : Z) (s : SafeLibev) :
  run self NullCallback done s = Fail AssertionFailed s /\
  runSync NullCallback done s = Fail AssertionFailed s /\
  runAfter timeout NullCallback s = Fail AssertionFailed s /\
  runAfterTS self timeout NullCallback s = Fail AssertionFailed s /\
  runLater NullCallback s = Fail AssertionFailed s.
Proof. repeat split. Qed.

(** ** Submission *)

Lemma runLater_eq (cb : Callback) (s : SafeLibev) :
  cb ≠ NullCallback ->
  runLater cb s =
  Ok (nextCommandId s) (emit EvAsyncSend (incNextCommandId (push_back cb s))).
Proof.
  intros Hcb. unfold_M. rewrite (is_null_false cb Hcb). reflexivity.
Qed.

Lemma nextCommandId_incNextCommandId (s : SafeLibev) :
  nextCommandId (incNextCommandId s) = succId (nextCommandId s).
Proof.
  unfold incNextCommandId, succId.
  destruct (nextCommandId s =? MAX_COMMAND_ID); reflexivity.
Qed.

Lemma commands_incNextCommandId (s : SafeLibev) :
  commands (incNextCommandId s) = commands s.
Proof.
  unfold incNextCommandId.
  destruct (nextCommandId s =? MAX_COMMAND_ID); reflexivity.
Qed.

Lemma events_incNextCommandId (s : SafeLibev) :
  events (incNextCommandId s) = events s.
Proof.
  unfold incNextCommandId.
  destruct (nextCommandId s =? MAX_COMMAND_ID); reflexivity.
Qed.

Lemma flags_incNextCommandId (s : SafeLibev) :
  flags (incNextCommandId s) = flags s.
Proof.
  unfold incNextCommandId.
  destruct (nextCommandId s =? MAX_COMMAND_ID); reflexivity.
Qed.

Lemma Command_new_id (n : Z) (cb : Callback) :
  0 <= n < ID_FIELD_MODULUS -> Command.id (Command.new n cb) = n.
Proof. intros Hn. simpl. apply Z.mod_small. exact Hn. Qed.

(** C6: for a callback that is not empty, [runLater] appends
    [Command(nextCommandId, callback)], not canceled, at the end of the
    vector, advances the counter as [incNextCommandId] does, signals the loop
    once and returns the id it used. The calling thread plays no part: the
    result is the same whichever thread is the loop thread. The callback is
    not called: the only new event is the signal. *)
Theorem runLater_submits (cb : Callback) (s : SafeLibev) :
  cb ≠ NullCallback ->
  exists s',
    runLater cb s = Ok (nextCommandId s) s' /\
    commands s' = commands s ++ [Command.new (nextCommandId s) cb] /\
    Command.callback (Command.new (nextCommandId s) cb) = cb /\
    Command.canceled (Command.new (nextCommandId s) cb) = false /\
    (0 <= nextCommandId s < ID_FIELD_MODULUS ->
     Command.id (Command.new (nextCommandId s) cb) = nextCommandId s) /\
    nextCommandId s' =
      (if nextCommandId s =? MAX_COMMAND_ID then 1
       else (nextCommandId s + 1) mod UINT_MODULUS) /\
    events s' = events s ++ [EvAsyncSend] /\
    flags s' = flags s /\
    forall t, runLater cb (set_loopThread t s) =
              Ok (nextCommandId s) (set_loopThread t s').
Proof.
  intros Hcb. eexists. split; [apply (runLater_eq cb s Hcb)|].
  split.
  { simpl. rewrite commands_incNextCommandId. reflexivity. }
  split; [reflexivity|]. split; [reflexivity|].
  split; [apply Command_new_id|].
  split.
  { simpl. rewrite nextCommandId_incNextCommandId. reflexivity. }
  split.
  { simpl. rewrite events_incNextCommandId. reflexivity. }
  split.
  { simpl. rewrite flags_incNextCommandId. reflexivity. }
  intros t. rewrite (runLater_eq cb _ Hcb). simpl. f_equal.
  unfold incNextCommandId. simpl.
  destruct (nextCommandId s =? MAX_COMMAND_ID); reflexivity.
Qed.

Lemma runLater_submits_witness :
  exists s',
    runLater (Closure 13) threePending = Ok 4 s' /\
    commands s' = commands threePending ++ [Command.new 4 (Closure 13)].
Proof.
  destruct (runLater_submits (Closure 13) threePending) as (s' & H1 & H2 & _).
  - discriminate.
  - exists s'. split; [exact H1|exact H2].
Defined.

(** ** Timers *)

Lemma runAfter_eq (timeout : Z) (cb : Callback) (s : SafeLibev) :
  cb ≠ NullCallback ->
  runAfter timeout cb s = Ok tt (emit (EvOnce timeout cb) s).
Proof.
  intros Hcb. unfold_M. rewrite (is_null_false cb Hcb). reflexivity.
Qed.

(** C8: on the loop thread [runAfterTS] is [runAfter]. Off the loop thread,
    with a callback that is not empty, it is [runLater] of the bound call
    [runAfter(timeout, callback)]: one command is queued and the loop is
    signalled, no timer is armed yet. Calling that command, as a drain does,
    is [runAfter(timeout, callback)]: it arms the timer and does not call the
    callback. *)
Theorem runAfterTS_defers_scheduling
    (self : nat) (timeout : Z) (cb : Callback) (s : SafeLibev) :
  cb ≠ NullCallback ->
  (onEventLoopThread self s = true ->
   runAfterTS self timeout cb s = runAfter timeout cb s) /\
  (onEventLoopThread self s = false ->
   runAfterTS self timeout cb s =
     (runLater (BindRunAfter timeout cb) ;; ret tt) s /\
   exists s',
     runAfterTS self timeout cb s = Ok tt s' /\
     commands s' =
       commands s ++ [Command.new (nextCommandId s) (BindRunAfter timeout cb)] /\
     events s' = events s ++ [EvAsyncSend]) /\
  (forall s0, invoke (BindRunAfter timeout cb) s0 = runAfter timeout cb s0) /\
  (forall s0, runAfter timeout cb s0 =
              Ok tt (mkSafeLibev (loopThread s0) (commands s0)
                       (nextCommandId s0) (flags s0)
                       (events s0 ++ [EvOnce timeout cb]))).
Proof.
  intros Hcb. split; [|split; [|split]].
  - intros Hon. unfold runAfterTS, bind, assert.
    rewrite (is_null_false cb Hcb). cbn [negb]. rewrite Hon. reflexivity.
  - intros Hoff.
    assert (runAfterTS self timeout cb s =
            (runLater (BindRunAfter timeout cb) ;; ret tt) s) as Heq.
    { unfold runAfterTS, bind at 1, assert.
      rewrite (is_null_false cb Hcb). cbn [negb]. rewrite Hoff.
      reflexivity. }
    split; [exact Heq|]. rewrite Heq. unfold bind at 1.
    rewrite runLater_eq by discriminate. eexists. split; [reflexivity|].
    simpl. rewrite commands_incNextCommandId, events_incNextCommandId.
    split; reflexivity.
  - reflexivity.
  - intros s0. apply runAfter_eq, Hcb.
Qed.

Lemma runAfterTS_defers_scheduling_witness :
  runAfterTS 5 250 (Closure 3) threePending =
  (runLater (BindRunAfter 250 (Closure 3)) ;; ret tt) threePending.
Proof.
  refine (proj1 (proj1 (proj2
    (runAfterTS_defers_scheduling 5 250 (Closure 3) threePending _)) _)).
  - discriminate.
  - reflexivity.
Defined.

(** ** Calling callbacks *)

(** Calling a bound member function is calling that member function. *)
Lemma invoke_bound (timeout : Z) (cb : Callback) (w done : nat) :
  invoke (BindRunAfter timeout cb) = runAfter timeout cb /\
  invoke (BindRunAndNotify cb done) = runAndNotify cb done /\
  invoke (BindStartWatcherAndNotify w done) = startWatcherAndNotify w done /\
  invoke (BindStopWatcherAndNotify w done) = stopWatcherAndNotify w done /\
  timeoutHandler cb = invoke cb.
Proof. repeat split. Qed.

(** Calling a callback never touches the vector, the counter or the loop
    thread, whether it returns or throws. *)
Lemma invoke_frame (cb : Callback) (s : SafeLibev) :
  commands (state_of (invoke cb s)) = commands s /\
  nextCommandId (state_of (invoke cb s)) = nextCommandId s /\
  loopThread (state_of (invoke cb s)) = loopThread s.
Proof.
  revert s. induction cb as [|tag|timeout cb _|cb IH done|w done|w done];
    intros s; simpl; try (repeat split; reflexivity).
  - unfold_M. destruct (is_null cb); simpl; repeat split; reflexivity.
  - unfold bind. specialize (IH s).
    destruct (invoke cb s) as [[] s1|e s1]; simpl in *; exact IH.
Qed.

Lemma runLoop_liveCallbacks (cmds : list Command.t) (s : SafeLibev) :
  runLoop cmds s = invokeAll (liveCallbacks cmds) s.
Proof.
  revert s. induction cmds as [|c rest IH]; intros s; [reflexivity|].
  simpl. unfold liveCallbacks, iteration. rewrite filter_cons.
  destruct (Command.canceled c) eqn:Hc; simpl.
  - unfold bind, ret. apply IH.
  - unfold bind. destruct (invoke (Command.callback c) s) as [[] s1|e s1];
      [apply IH|reflexivity].
Qed.

Lemma invokeAll_frame (cbs : list Callback) (s : SafeLibev) :
  commands (state_of (invokeAll cbs s)) = commands s /\
  nextCommandId (state_of (invokeAll cbs s)) = nextCommandId s /\
  loopThread (state_of (invokeAll cbs s)) = loopThread s.
Proof.
  revert s. induction cbs as [|cb rest IH]; intros s; simpl;
    [repeat split; reflexivity|].
  unfold bind. pose proof (invoke_frame cb s) as Hcb.
  destruct (invoke cb s) as [[] s1|e s1]; simpl in *; [|exact Hcb].
  destruct (IH s1) as (H1 & H2 & H3), Hcb as (H4 & H5 & H6).
  repeat split; congruence.
Qed.

Lemma invokeAll_closures (tags : list nat) (s : SafeLibev) :
  invokeAll (Closure <$> tags) s =
  Ok tt (mkSafeLibev (loopThread s) (commands s) (nextCommandId s) (flags s)
           (events s ++ (EvCall <$> tags))).
Proof.
  revert s. induction tags as [|tag rest IH]; intros s; simpl.
  - unfold ret. rewrite app_nil_r. destruct s; reflexivity.
  - unfold bind, modify. rewrite IH. simpl. rewrite <- app_assoc.
    reflexivity.
Qed.

(** ** Draining *)

(** C1: a drain takes the whole vector and leaves it empty, under the lock;
    it then calls the callbacks of the commands that are not canceled, each
    once, in the order of the vector, and calls nothing else. Whatever the
    callbacks do, the vector is empty and the counter untouched when the
    drain ends. When the live callbacks are closures of the caller, the
    events of the drain are exactly their calls, in that order. *)
Theorem runCommands_runs_live_in_order (s : SafeLibev) :
  drain s = (commands s, set_commands [] s) /\
  commands (drain s).2 = [] /\
  runCommands s = invokeAll (liveCallbacks (commands s)) (set_commands [] s) /\
  commands (state_of (runCommands s)) = [] /\
  nextCommandId (state_of (runCommands s)) = nextCommandId s /\
  forall tags,
    liveCallbacks (commands s) = Closure <$> tags ->
    runCommands s =
    Ok tt (mkSafeLibev (loopThread s) [] (nextCommandId s) (flags s)
             (events s ++ (EvCall <$> tags))).
Proof.
  assert (runCommands s =
          invokeAll (liveCallbacks (commands s)) (set_commands [] s)) as Heq.
  { unfold runCommands, drain. apply runLoop_liveCallbacks. }
  split; [reflexivity|]. split; [reflexivity|]. split; [exact Heq|].
  rewrite Heq.
  destruct (invokeAll_frame (liveCallbacks (commands s)) (set_commands [] s))
    as (H1 & H2 & _).
  split; [exact H1|]. split; [exact H2|].
  intros tags ->. apply invokeAll_closures.
Qed.

Lemma runCommands_runs_live_in_order_witness :
  runCommands threePending =
  Ok tt (mkSafeLibev (loopThread threePending) []
           (nextCommandId threePending) (flags threePending)
           (events threePending ++ [EvCall 10; EvCall 12])).
Proof.
  refine (proj2 (proj2 (proj2 (proj2 (proj2
    (runCommands_runs_live_in_order threePending))))) [10; 12]%nat _).
  reflexivity.
Defined.

(** ** Running a callback *)

Lemma submitAndWait_eq (cb : Callback) (done : nat) (s : SafeLibev) :
  submitAndWait cb done s =
  Ok (Waiting done)
     (emit EvAsyncSend (incNextCommandId (push_back cb (set_flag done false s)))).
Proof. reflexivity. Qed.

(** C7: with a callback that is not empty, [run] on the loop thread calls
    the callback at once and returns: the vector and the counter are left as
    they were, and for a closure of the caller the one new event is its call.
    Off the loop thread [run] is [runSync]: the bound call
    [runAndNotify(&callback, &done)] is queued, the loop is signalled and the
    caller waits on [done], which that command sets after it has called the
    callback. *)
Theorem run_inline_or_runSync
    (self : nat) (cb : Callback) (done : nat) (s : SafeLibev) :
  cb ≠ NullCallback ->
  (onEventLoopThread self s = true ->
   run self cb done s = (invoke cb ;; ret Returned) s /\
   commands (state_of (run self cb done s)) = commands s /\
   nextCommandId (state_of (run self cb done s)) = nextCommandId s /\
   forall tag, cb = Closure tag ->
     run self cb done s =
     Ok Returned (mkSafeLibev (loopThread s) (commands s) (nextCommandId s)
                    (flags s) (events s ++ [EvCall tag]))) /\
  (onEventLoopThread self s = false ->
   run self cb done s = runSync cb done s /\
   exists s',
     runSync cb done s = Ok (Waiting done) s' /\
     commands s' =
       commands s ++ [Command.new (nextCommandId s) (BindRunAndNotify cb done)] /\
     nextCommandId s' = succId (nextCommandId s) /\
     flags s' = <[done := false]> (flags s) /\
     events s' = events s ++ [EvAsyncSend]) /\
  (forall s0, invoke (BindRunAndNotify cb done) s0 =
              (invoke cb ;; notifyDone done) s0).
Proof.
  intros Hcb. split; [|split].
  - intros Hon.
    assert (run self cb done s = (invoke cb ;; ret Returned) s) as Heq.
    { unfold run, bind at 1, assert. rewrite (is_null_false cb Hcb).
      cbn [negb]. rewrite Hon. reflexivity. }
    split; [exact Heq|]. rewrite Heq. unfold bind, ret.
    destruct (invoke_frame cb s) as (H1 & H2 & _).
    split; [|split].
    + destruct (invoke cb s); exact H1.
    + destruct (invoke cb s); exact H2.
    + intros tag ->. reflexivity.
  - intros Hoff.
    assert (run self cb done s = runSync cb done s) as Heq.
    { unfold run, bind at 1, assert. rewrite (is_null_false cb Hcb).
      cbn [negb]. rewrite Hoff. reflexivity. }
    split; [exact Heq|].
    unfold runSync, bind at 1, assert. rewrite (is_null_false cb Hcb).
    cbn [negb]. rewrite submitAndWait_eq. eexists. split; [reflexivity|].
    simpl. rewrite commands_incNextCommandId, nextCommandId_incNextCommandId,
      flags_incNextCommandId, events_incNextCommandId.
    repeat split.
  - reflexivity.
Qed.

Lemma run_inline_or_runSync_witness :
  run 0 (Closure 4) 9 threePending =
  Ok Returned (mkSafeLibev (loopThread threePending) (commands threePending)
                 (nextCommandId threePending) (flags threePending)
                 (events threePending ++ [EvCall 4%nat])).
Proof.
  refine (proj2 (proj2 (proj2 (proj1
    (run_inline_or_runSync 0 (Closure 4) 9 threePending _) _))) 4%nat _).
  - discriminate.
  - reflexivity.
  - reflexivity.
Defined.

(** ** What one call does to the vector and the counter *)

Lemma state_of_bind_ret {A B} (m : M A) (b : B) (s : SafeLibev) :
  state_of ((m ;; ret b) s) = state_of (m s).
Proof. unfold bind, ret. destruct (m s); reflexivity. Qed.

Lemma callback_null_or_not (cb : Callback) :
  cb = NullCallback \/ cb ≠ NullCallback.
Proof. destruct cb; (left; reflexivity) || (right; discriminate). Qed.

Lemma run_on_thread (self : nat) (cb : Callback) (done : nat) (s : SafeLibev) :
  cb ≠ NullCallback -> onEventLoopThread self s = true ->
  run self cb done s = (invoke cb ;; ret Returned) s.
Proof.
  intros Hcb Hon. unfold run, bind at 1, assert.
  rewrite (is_null_false cb Hcb). cbn [negb]. rewrite Hon. reflexivity.
Qed.

Lemma runSync_eq (cb : Callback) (done : nat) (s : SafeLibev) :
  cb ≠ NullCallback ->
  runSync cb done s = submitAndWait (BindRunAndNotify cb done) done s.
Proof.
  intros Hcb. unfold runSync, bind at 1, assert.
  rewrite (is_null_false cb Hcb). reflexivity.
Qed.

Lemma run_off_thread (self : nat) (cb : Callback) (done : nat) (s : SafeLibev) :
  cb ≠ NullCallback -> onEventLoopThread self s = false ->
  run self cb done s = submitAndWait (BindRunAndNotify cb done) done s.
Proof.
  intros Hcb Hoff. rewrite <- (runSync_eq cb done s Hcb).
  unfold run, bind at 1, assert.
  rewrite (is_null_false cb Hcb). cbn [negb]. rewrite Hoff. reflexivity.
Qed.

Lemma runAfterTS_on_thread (self : nat) (timeout : Z) (cb : Callback)
    (s : SafeLibev) :
  cb ≠ NullCallback -> onEventLoopThread self s = true ->
  runAfterTS self timeout cb s = Ok tt (emit (EvOnce timeout cb) s).
Proof.
  intros Hcb Hon. rewrite <- (runAfter_eq timeout cb s Hcb).
  unfold runAfterTS, bind at 1, assert.
  rewrite (is_null_false cb Hcb). cbn [negb]. rewrite Hon. reflexivity.
Qed.

Lemma runAfterTS_off_thread (self : nat) (timeout : Z) (cb : Callback)
    (s : SafeLibev) :
  cb ≠ NullCallback -> onEventLoopThread self s = false ->
  runAfterTS self timeout cb s =
  Ok tt (emit EvAsyncSend
           (incNextCommandId (push_back (BindRunAfter timeout cb) s))).
Proof.
  intros Hcb Hoff. unfold runAfterTS, bind at 1, assert.
  rewrite (is_null_false cb Hcb). cbn [negb]. rewrite Hoff.
  unfold bind at 1. rewrite runLater_eq by discriminate. reflexivity.
Qed.

(** A call other than a drain leaves the vector and the counter alone, or
    appends one command under the current id and steps the counter, or marks
    one command canceled. *)
Lemma perform_queue (c : Call) (s : SafeLibev) :
  c ≠ CallAsyncHandler ->
  (commands (perform c s) = commands s /\
   nextCommandId (perform c s) = nextCommandId s) \/
  (exists cb,
     commands (perform c s) =
       commands s ++ [Command.new (nextCommandId s) cb] /\
     nextCommandId (perform c s) = succId (nextCommandId s) /\
     forall tag, callMentions tag c = false -> mentions tag cb = false) \/
  (exists k,
     commands (perform c s) = alter Command.cancel k (commands s) /\
     nextCommandId (perform c s) = nextCommandId s).
Proof.
  intros Hc.
  destruct c as [self w done|self w done|self cb done|cb done|timeout cb
                |self timeout cb|cb|id|self| | ]; simpl.
  - unfold start. destruct (onEventLoopThread self s).
    + left. split; reflexivity.
    + right; left. exists (BindStartWatcherAndNotify w done). simpl.
      rewrite commands_incNextCommandId, nextCommandId_incNextCommandId.
      repeat split.
  - unfold stop. destruct (onEventLoopThread self s).
    + left. split; reflexivity.
    + right; left. exists (BindStopWatcherAndNotify w done). simpl.
      rewrite commands_incNextCommandId, nextCommandId_incNextCommandId.
      repeat split.
  - destruct (callback_null_or_not cb) as [->|Hcb].
    { left. split; reflexivity. }
    destruct (onEventLoopThread self s) eqn:Hon.
    + left. rewrite (run_on_thread _ _ _ _ Hcb Hon), state_of_bind_ret.
      destruct (invoke_frame cb s) as (H1 & H2 & _). split; assumption.
    + right; left. exists (BindRunAndNotify cb done).
      rewrite (run_off_thread _ _ _ _ Hcb Hon). simpl.
      rewrite commands_incNextCommandId, nextCommandId_incNextCommandId.
      repeat split. intros tag H. exact H.
  - destruct (callback_null_or_not cb) as [->|Hcb].
    { left. split; reflexivity. }
    right; left. exists (BindRunAndNotify cb done).
    rewrite (runSync_eq _ _ _ Hcb). simpl.
    rewrite commands_incNextCommandId, nextCommandId_incNextCommandId.
    repeat split. intros tag H. exact H.
  - destruct (callback_null_or_not cb) as [->|Hcb].
    { left. split; reflexivity. }
    left. rewrite (runAfter_eq _ _ _ Hcb). split; reflexivity.
  - destruct (callback_null_or_not cb) as [->|Hcb].
    { left. split; reflexivity. }
    destruct (onEventLoopThread self s) eqn:Hon.
    + left. rewrite (runAfterTS_on_thread _ _ _ _ Hcb Hon). split; reflexivity.
    + right; left. exists (BindRunAfter timeout cb).
      rewrite (runAfterTS_off_thread _ _ _ _ Hcb Hon). simpl.
      rewrite commands_incNextCommandId, nextCommandId_incNextCommandId.
      repeat split. intros tag H. exact H.
  - destruct (callback_null_or_not cb) as [->|Hcb].
    { left. split; reflexivity. }
    right; left. exists cb. rewrite (runLater_eq _ _ Hcb). simpl.
    rewrite commands_incNextCommandId, nextCommandId_incNextCommandId.
    repeat split. intros tag H. exact H.
  - destruct (Z.eq_dec id 0) as [->|Hid].
    { left. split; reflexivity. }
    rewrite (cancelCommand_findCommand _ _ Hid).
    destruct (findCommand id (commands s)) as [k|].
    + right; right. exists k. split; reflexivity.
    + left. split; reflexivity.
  - left. split; reflexivity.
  - left. split; reflexivity.
  - contradiction.
Qed.

Lemma call_asyncHandler_or_not (c : Call) :
  c = CallAsyncHandler \/ c ≠ CallAsyncHandler.
Proof. destruct c; (left; reflexivity) || (right; discriminate). Qed.

(** A drain leaves the counter alone and the vector empty. *)
Lemma perform_asyncHandler (s : SafeLibev) :
  commands (perform CallAsyncHandler s) = [] /\
  nextCommandId (perform CallAsyncHandler s) = nextCommandId s.
Proof.
  simpl. unfold asyncHandler, runCommands, drain.
  rewrite runLoop_liveCallbacks.
  destruct (invokeAll_frame (liveCallbacks (commands s)) (set_commands [] s))
    as (H1 & H2 & _).
  split; assumption.
Qed.

(** ** The id counter *)

Lemma succId_valid (n : Z) :
  validId n ->
  validId (succId n) /\
  succId n = (if n =? MAX_COMMAND_ID then 1 else n + 1).
Proof.
  unfold validId, succId, MAX_COMMAND_ID, UINT_MODULUS. intros Hn.
  destruct (Z.eqb_spec n 268435455) as [->|Hne].
  - split; [lia|reflexivity].
  - rewrite Z.mod_small by lia. split; [lia|reflexivity].
Qed.

Lemma Command_new_id_valid (n : Z) (cb : Callback) :
  validId n -> Command.id (Command.new n cb) = n.
Proof.
  intros Hn. apply Command_new_id.
  unfold validId, MAX_COMMAND_ID in Hn. unfold ID_FIELD_MODULUS. lia.
Qed.

Lemma alter_cancel_ids (k : nat) (cmds : list Command.t) :
  Command.id <$> alter Command.cancel k cmds = Command.id <$> cmds.
Proof.
  revert k. induction cmds as [|c rest IH]; intros [|k]; simpl;
    try reflexivity.
  f_equal. specialize (IH k). unfold alter in IH. exact IH.
Qed.

(** In every reachable state the counter and the ids of the pending commands
    lie in [1 .. MAX_COMMAND_ID]. *)
Lemma reachable_ids_valid (s : SafeLibev) :
  reachable s ->
  validId (nextCommandId s) /\ Forall validId (Command.id <$> commands s).
Proof.
  induction 1 as [self|c s Hs (Hnext & Hids)].
  - split; [unfold validId, MAX_COMMAND_ID; simpl; lia|constructor].
  - destruct (call_asyncHandler_or_not c) as [->|Hc].
    + destruct (perform_asyncHandler s) as (-> & ->).
      split; [exact Hnext|constructor].
    + destruct (perform_queue c s Hc)
        as [(-> & ->)|[(cb & -> & -> & _)|(k & -> & ->)]].
      * split; assumption.
      * split; [apply succId_valid, Hnext|].
        rewrite fmap_app. apply Forall_app. split; [exact Hids|].
        constructor; [|constructor].
        rewrite Command_new_id_valid; assumption.
      * rewrite alter_cancel_ids. split; assumption.
Qed.

Lemma reachable_performAll (cs : list Call) (s : SafeLibev) :
  reachable s -> reachable (performAll cs s).
Proof.
  revert s. induction cs as [|c rest IH]; intros s Hs; [exact Hs|].
  apply IH. constructor. exact Hs.
Qed.

Lemma reachable_threePending : reachable threePending.
Proof. apply reachable_performAll. constructor. Qed.

(** C5: the counter is 1 in a new object. In every state the calls can
    reach, it lies in [1 .. 268435455]; [incNextCommandId] adds one to it,
    except at 268435455, where it goes back to 1, so that it stays in the
    range and is never 0. A call moves the counter only when it appends a
    command, and then by exactly that one step. The ids of the pending
    commands, and the id [runLater] returns, are therefore never 0. *)
Theorem nextCommandId_cycles_from_one (s : SafeLibev) :
  reachable s ->
  (forall self, nextCommandId (SafeLibev_new self) = 1) /\
  1 <= nextCommandId s <= 268435455 /\
  nextCommandId (incNextCommandId s) =
    (if nextCommandId s =? 268435455 then 1 else nextCommandId s + 1) /\
  1 <= nextCommandId (incNextCommandId s) <= 268435455 /\
  (forall c, c ∈ commands s -> 1 <= Command.id c <= 268435455) /\
  (forall cb, cb ≠ NullCallback ->
     exists s', runLater cb s = Ok (nextCommandId s) s' /\
                nextCommandId s ≠ 0 /\
                nextCommandId s' = nextCommandId (incNextCommandId s)) /\
  (forall c,
     (length (commands (perform c s)) = S (length (commands s)) /\
      nextCommandId (perform c s) = nextCommandId (incNextCommandId s)) \/
     ((length (commands (perform c s)) <= length (commands s))%nat /\
      nextCommandId (perform c s) = nextCommandId s)).
Proof.
  intros Hs. destruct (reachable_ids_valid s Hs) as (Hnext & Hids).
  destruct (succId_valid _ Hnext) as (Hsucc & Heq).
  rewrite nextCommandId_incNextCommandId.
  split; [reflexivity|]. split; [exact Hnext|]. split; [exact Heq|].
  split; [exact Hsucc|]. split; [|split].
  - intros c Hc. rewrite Forall_forall in Hids. apply Hids.
    apply list_elem_of_fmap. exists c. split; [reflexivity|exact Hc].
  - intros cb Hcb. eexists. split; [apply (runLater_eq cb s Hcb)|].
    split; [unfold validId in Hnext; lia|].
    simpl. rewrite nextCommandId_incNextCommandId. reflexivity.
  - intros c. destruct (call_asyncHandler_or_not c) as [->|Hc].
    + right. destruct (perform_asyncHandler s) as (-> & ->).
      split; [simpl; lia|reflexivity].
    + destruct (perform_queue c s Hc)
        as [(-> & ->)|[(cb & -> & -> & _)|(k & -> & ->)]].
      * right. split; [lia|reflexivity].
      * left. split; [|reflexivity].
        rewrite length_app. simpl. lia.
      * right. split; [|reflexivity].
        rewrite length_alter. lia.
Qed.

Lemma nextCommandId_cycles_from_one_witness :
  1 <= nextCommandId threePending <= 268435455.
Proof.
  apply (nextCommandId_cycles_from_one threePending).
  apply reachable_performAll. constructor.
Defined.

(** ** Events that do not involve a given closure *)

Section NeverRuns.

Context (tag : nat).

Lemma extends_refl (s : SafeLibev) : extends tag s s.
Proof. exists []. split; [rewrite app_nil_r; reflexivity|constructor]. Qed.

Lemma extends_trans (s1 s2 s3 : SafeLibev) :
  extends tag s1 s2 -> extends tag s2 s3 -> extends tag s1 s3.
Proof.
  intros (evs1 & H1 & Hq1) (evs2 & H2 & Hq2). exists (evs1 ++ evs2).
  split; [rewrite H2, H1, app_assoc; reflexivity|].
  apply Forall_app. split; assumption.
Qed.

Lemma extends_emit (e : Event) (s : SafeLibev) :
  eventMentions tag e = false -> extends tag s (emit e s).
Proof.
  intros He. exists [e]. split; [reflexivity|].
  constructor; [exact He|constructor].
Qed.

Lemma extends_same_events (s s' : SafeLibev) :
  events s' = events s -> extends tag s s'.
Proof.
  intros H. exists []. split; [rewrite app_nil_r; exact H|constructor].
Qed.

Lemma extends_notifyDone (done : nat) (s : SafeLibev) :
  extends tag s (state_of (notifyDone done s)).
Proof.
  exists [EvNotifyAll]. split; [reflexivity|].
  constructor; [reflexivity|constructor].
Qed.

(** The tail every submission has in common: the counter steps, the loop is
    signalled. *)
Lemma extends_submit (s s0 : SafeLibev) :
  events s0 = events s ->
  extends tag s (emit EvAsyncSend (incNextCommandId s0)).
Proof.
  intros H. exists [EvAsyncSend]. simpl.
  rewrite events_incNextCommandId, H. split; [reflexivity|].
  constructor; [reflexivity|constructor].
Qed.

Ltac submitted := cbn [state_of]; apply extends_submit; reflexivity.

(** Calling a callback that does not mention the closure does not call it
    and arms no timer for it. *)
Lemma invoke_extends (cb : Callback) (s : SafeLibev) :
  mentions tag cb = false -> extends tag s (state_of (invoke cb s)).
Proof.
  revert s. induction cb as [|t|timeout cb _|cb IH done|w done|w done];
    intros s Hm; simpl in *.
  - apply extends_refl.
  - apply extends_emit, Hm.
  - unfold_M. destruct (is_null cb); simpl;
      [apply extends_refl|apply extends_emit, Hm].
  - unfold bind. specialize (IH s Hm).
    destruct (invoke cb s) as [[] s1|e s1]; simpl in *; [|exact IH].
    apply (extends_trans _ _ _ IH), extends_notifyDone.
  - apply (extends_trans _ (emit (EvWatcherStart w) s));
      [apply extends_emit; reflexivity|apply extends_notifyDone].
  - apply (extends_trans _ (emit (EvWatcherStop w) s));
      [apply extends_emit; reflexivity|apply extends_notifyDone].
Qed.

Lemma harmless_live (c : Command.t) :
  harmless tag c -> Command.canceled c = false ->
  mentions tag (Command.callback c) = false.
Proof.
  unfold harmless. intros H Hlive.
  destruct (mentions tag (Command.callback c)); [|reflexivity].
  rewrite H in Hlive by reflexivity. discriminate.
Qed.

Lemma harmless_cancel (c : Command.t) : harmless tag (Command.cancel c).
Proof. intros _. reflexivity. Qed.

Lemma harmless_new (n : Z) (cb : Callback) :
  mentions tag cb = false -> harmless tag (Command.new n cb).
Proof. unfold harmless. simpl. intros ->. discriminate. Qed.

Lemma harmless_alter_cancel (k : nat) (cmds : list Command.t) :
  Forall (harmless tag) cmds ->
  Forall (harmless tag) (alter Command.cancel k cmds).
Proof.
  intros H. revert k. induction H as [|c rest Hc Hrest IH]; intros [|k]; simpl.
  - constructor.
  - constructor.
  - constructor; [apply harmless_cancel|exact Hrest].
  - constructor; [exact Hc|apply IH].
Qed.

Lemma iteration_extends (it : Command.t) (s : SafeLibev) :
  harmless tag it -> extends tag s (state_of (iteration it s)).
Proof.
  intros Hit. unfold iteration.
  destruct (Command.canceled it) eqn:Hc; simpl.
  - apply extends_refl.
  - apply invoke_extends, harmless_live; assumption.
Qed.

Lemma iteration_frame (it : Command.t) (s : SafeLibev) :
  commands (state_of (iteration it s)) = commands s.
Proof.
  unfold iteration. destruct (Command.canceled it); simpl; [reflexivity|].
  apply invoke_frame.
Qed.

(** A loop over harmless commands does not call the closure. *)
Lemma runLoop_extends (cmds : list Command.t) (s : SafeLibev) :
  Forall (harmless tag) cmds -> extends tag s (state_of (runLoop cmds s)).
Proof.
  intros H. revert s. induction H as [|c rest Hc _ IH]; intros s; simpl.
  - apply extends_refl.
  - pose proof (iteration_extends c s Hc) as Hit. unfold bind.
    destruct (iteration c s) as [[] s1|e s1]; simpl in *; [|exact Hit].
    apply (extends_trans _ _ _ Hit). apply IH.
Qed.

(** A call whose callback does not mention the closure does not call it. *)
Lemma perform_extends (c : Call) (s : SafeLibev) :
  c ≠ CallAsyncHandler ->
  callMentions tag c = false ->
  extends tag s (perform c s).
Proof.
  intros Hc Hm.
  destruct c as [self w done|self w done|self cb done|cb done|timeout cb
                |self timeout cb|cb|id|self| | ]; simpl in *;
    try (destruct (callback_null_or_not cb) as [->|Hcb];
         [apply extends_refl|]).
  - unfold start. destruct (onEventLoopThread self s).
    + apply extends_emit. reflexivity.
    + rewrite submitAndWait_eq. submitted.
  - unfold stop. destruct (onEventLoopThread self s).
    + apply extends_emit. reflexivity.
    + rewrite submitAndWait_eq. submitted.
  - destruct (onEventLoopThread self s) eqn:Hon.
    + rewrite (run_on_thread _ _ _ _ Hcb Hon), state_of_bind_ret.
      apply invoke_extends, Hm.
    + rewrite (run_off_thread _ _ _ _ Hcb Hon), submitAndWait_eq. submitted.
  - rewrite (runSync_eq _ _ _ Hcb), submitAndWait_eq. submitted.
  - rewrite (runAfter_eq _ _ _ Hcb). apply extends_emit, Hm.
  - destruct (onEventLoopThread self s) eqn:Hon.
    + rewrite (runAfterTS_on_thread _ _ _ _ Hcb Hon). apply extends_emit, Hm.
    + rewrite (runAfterTS_off_thread _ _ _ _ Hcb Hon). submitted.
  - rewrite (runLater_eq _ _ Hcb). submitted.
  - apply extends_same_events. unfold cancelCommand.
    destruct (id =? 0); [reflexivity|].
    destruct (cancelScan id (commands s)). reflexivity.
  - apply extends_same_events. reflexivity.
  - apply extends_emit. reflexivity.
  - contradiction.
Qed.

(** *** The interleaved machine *)

(** One step keeps the closure without a live carrier and does not call it. *)
Lemma mstep_noLiveCarrier (l : Label) (m : Machine) :
  labelMentions tag l = false ->
  noLiveCarrier tag m ->
  noLiveCarrier tag (mstep l m) /\ extends tag (obj m) (obj (mstep l m)).
Proof.
  intros Hl (Hq & Hb). destruct l as [c| | ]; simpl in *.
  - destruct (call_asyncHandler_or_not c) as [->|Hc].
    + split.
      * split; [|exact Hb]. simpl.
        destruct (perform_asyncHandler (obj m)) as (H & _).
        simpl in H. rewrite H. constructor.
      * simpl. unfold asyncHandler, runCommands, drain.
        apply (extends_trans _ (set_commands [] (obj m)));
          [apply extends_same_events; reflexivity|].
        apply runLoop_extends. exact Hq.
    + split; [|apply perform_extends; assumption].
      split; [|exact Hb]. simpl.
      destruct (perform_queue c (obj m) Hc)
        as [(-> & _)|[(cb & -> & _ & Hcb)|(k & -> & _)]].
      * exact Hq.
      * apply Forall_app. split; [exact Hq|].
        constructor; [|constructor]. apply harmless_new, Hcb, Hl.
      * apply harmless_alter_cancel, Hq.
  - destruct (batch m) as [|it rest] eqn:Hbatch.
    + simpl. split; [|apply extends_same_events; reflexivity].
      split; simpl; [constructor|exact Hq].
    + split; [|apply extends_refl]. split; [exact Hq|].
      rewrite Hbatch. exact Hb.
  - destruct (batch m) as [|it rest] eqn:Hbatch.
    + split; [|apply extends_refl]. split; [exact Hq|].
      rewrite Hbatch. exact Hb.
    + inversion Hb as [|? ? Hit Hrest]; subst.
      pose proof (iteration_extends it (obj m) Hit) as Hext.
      pose proof (iteration_frame it (obj m)) as Hfr.
      destruct (iteration it (obj m)) as [[] s1|e s1]; simpl in *.
      * split; [|exact Hext]. split; simpl; [rewrite Hfr; exact Hq|exact Hrest].
      * split; [|exact Hext]. split; simpl; [rewrite Hfr; exact Hq|constructor].
Qed.

Lemma mrun_noLiveCarrier (ls : list Label) (m : Machine) :
  Forall (fun l => labelMentions tag l = false) ls ->
  noLiveCarrier tag m ->
  noLiveCarrier tag (mrun ls m) /\ extends tag (obj m) (obj (mrun ls m)).
Proof.
  intros Hls. revert m. induction Hls as [|l rest Hl _ IH]; intros m Hm.
  - split; [exact Hm|apply extends_refl].
  - destruct (mstep_noLiveCarrier l m Hl Hm) as (Hm1 & Hext1).
    destruct (IH _ Hm1) as (Hm2 & Hext2). simpl.
    split; [exact Hm2|]. apply (extends_trans _ _ _ Hext1 Hext2).
Qed.

(** Marking the only live carrier of the closure leaves none. *)
Lemma alter_cancel_harmless (k : nat) (cmds : list Command.t) :
  (forall j c, cmds !! j = Some c ->
               mentions tag (Command.callback c) = true ->
               Command.canceled c = false -> j = k) ->
  Forall (harmless tag) (alter Command.cancel k cmds).
Proof.
  intros Honly. apply Forall_lookup. intros j c Hj.
  rewrite list_lookup_alter in Hj.
  destruct (decide (k = j)) as [->|Hne].
  - destruct (cmds !! j) as [c0|]; simpl in Hj; [|discriminate].
    injection Hj as <-. apply harmless_cancel.
  - intros Hm. destruct (Command.canceled c) eqn:Hc; [reflexivity|].
    exfalso. apply Hne. symmetry. apply (Honly j c Hj Hm Hc).
Qed.

(** C3: let [cancelCommand(id)] return true in a state where the command it
    stops at is the only pending or in-flight command, not yet canceled, that
    would call closure [tag]. Then, however the later calls of all threads
    and the steps of later drains interleave, as long as no later call hands
    the closure over again, the closure is never called and no timer is armed
    for it: every event after the cancellation leaves [tag] out. *)
Theorem canceled_command_never_runs
    (id : Z) (m : Machine) (s' : SafeLibev) (ls : list Label) :
  cancelCommand id (obj m) = (true, s') ->
  (forall k c,
     commands (obj m) !! k = Some c ->
     mentions tag (Command.callback c) = true ->
     Command.canceled c = false ->
     findCommand id (commands (obj m)) = Some k) ->
  Forall (harmless tag) (batch m) ->
  Forall (fun l => labelMentions tag l = false) ls ->
  exists evs,
    events (obj (mrun ls (mkMachine s' (batch m)))) = events (obj m) ++ evs /\
    (EvCall tag ∉ evs) /\
    (forall timeout cb, EvOnce timeout cb ∈ evs -> mentions tag cb = false).
Proof.
  intros Hcancel Honly Hbatch Hls.
  assert (id ≠ 0) as Hid.
  { intros ->. change (cancelCommand 0 (obj m)) with (false, obj m) in Hcancel.
    discriminate. }
  rewrite (cancelCommand_findCommand _ _ Hid) in Hcancel.
  destruct (findCommand id (commands (obj m))) as [k|] eqn:Hfind;
    [|discriminate].
  injection Hcancel as <-.
  assert (noLiveCarrier tag
            (mkMachine (set_commands (alter Command.cancel k (commands (obj m)))
                          (obj m)) (batch m))) as Hinv.
  { split; [|exact Hbatch]. simpl. apply alter_cancel_harmless.
    intros j c Hj Hm Hc. specialize (Honly j c Hj Hm Hc). congruence. }
  destruct (mrun_noLiveCarrier ls _ Hls Hinv) as (_ & evs & Hev & Hq).
  exists evs. split; [exact Hev|]. unfold quiet in Hq.
  rewrite Forall_forall in Hq. split.
  - intros Hin. specialize (Hq _ Hin). simpl in Hq.
    rewrite Nat.eqb_refl in Hq. discriminate.
  - intros timeout cb Hin. exact (Hq _ Hin).
Qed.

End NeverRuns.

(** The loop of the machine, run to its end, is the loop of [runCommands]. *)
Lemma mrun_loop (cmds : list Command.t) (s : SafeLibev) :
  mrun (replicate (length cmds) LDrainNext) (mkMachine s cmds) =
  mkMachine (state_of (runLoop cmds s)) [].
Proof.
  revert s. induction cmds as [|c rest IH]; intros s; [reflexivity|].
  simpl. unfold bind. destruct (iteration c s) as [[] s1|e s1]; simpl.
  - apply IH.
  - clear IH. generalize (length rest). intros n.
    induction n as [|n IHn]; [reflexivity|exact IHn].
Qed.

(** A drain of the machine, run without interruption, is [runCommands]. *)
Lemma mrun_drain (s : SafeLibev) :
  mrun (LDrainBegin :: replicate (length (commands s)) LDrainNext)
       (mkMachine s []) =
  mkMachine (state_of (runCommands s)) [].
Proof. simpl. apply mrun_loop. Qed.

Example race_events :
  events (obj (mrun raceLabels
                 (mkMachine (cancelCommand 2 (obj raceStart)).2 []))) =
  events (obj raceStart) ++
  [EvAsyncSend; EvCall 10; EvAsyncSend; EvCall 12; EvCall 13; EvCall 14].
Proof. reflexivity. Qed.

Lemma canceled_command_never_runs_witness :
  exists evs,
    events (obj (mrun raceLabels
                   (mkMachine (cancelCommand 2 (obj raceStart)).2 []))) =
    events (obj raceStart) ++ evs /\
    (EvCall 11 ∉ evs).
Proof.
  destruct (canceled_command_never_runs 11 2 raceStart
              (cancelCommand 2 (obj raceStart)).2 raceLabels)
    as (evs & Hev & Hno & _).
  - reflexivity.
  - intros [|[|[|k]]] c; simpl; intros Hc Hm Hlive;
      try discriminate; try reflexivity;
      injection Hc as <-; discriminate.
  - constructor.
  - repeat constructor.
  - exists evs. split; [exact Hev|exact Hno].
Defined.

(** ** Distinct ids *)

(** [k] steps of the counter from [i], in closed form. *)
Lemma iter_succId (i : Z) (k : nat) :
  validId i ->
  Nat.iter k succId i = (i - 1 + Z.of_nat k) mod MAX_COMMAND_ID + 1.
Proof.
  unfold validId. intros Hi. induction k as [|k IH].
  - simpl. rewrite Z.add_0_r, Z.mod_small by lia. lia.
  - rewrite Nat.iter_succ, IH. clear IH.
    replace (i - 1 + Z.of_nat (S k)) with ((i - 1 + Z.of_nat k) + 1) by lia.
    generalize (i - 1 + Z.of_nat k). intros x.
    unfold succId, MAX_COMMAND_ID, UINT_MODULUS in *.
    pose proof (Z.mod_pos_bound x 268435455 ltac:(lia)) as Hx.
    destruct (Z.eqb_spec (x mod 268435455 + 1) 268435455) as [Heq|Hne].
    + assert ((x + 1) mod 268435455 = 0) as ->; [|reflexivity].
      rewrite <- Zplus_mod_idemp_l.
      replace (x mod 268435455) with 268435454 by lia. reflexivity.
    + rewrite (Z.mod_small _ (2 ^ 32)) by lia.
      rewrite <- (Zplus_mod_idemp_l x). rewrite (Z.mod_small (_ + 1)) by lia.
      reflexivity.
Qed.

Lemma idsFrom_length (i : Z) (n : nat) : length (idsFrom i n) = n.
Proof. revert i. induction n as [|n IH]; intros i; simpl; [|rewrite IH]; reflexivity. Qed.

Lemma iter_succId_shift (i : Z) (k : nat) :
  Nat.iter k succId (succId i) = Nat.iter (S k) succId i.
Proof.
  induction k as [|k IH]; [reflexivity|].
  rewrite Nat.iter_succ, IH. reflexivity.
Qed.

Lemma idsFrom_lookup (i : Z) (n k : nat) :
  (k < n)%nat -> idsFrom i n !! k = Some (Nat.iter k succId i).
Proof.
  revert i k. induction n as [|n IH]; intros i k Hk; [lia|].
  destruct k as [|k]; [reflexivity|]. simpl idsFrom.
  change ((i :: idsFrom (succId i) n) !! S k)
    with (idsFrom (succId i) n !! k).
  rewrite IH by lia. rewrite iter_succId_shift. reflexivity.
Qed.

Lemma idsFrom_snoc (i : Z) (n : nat) :
  idsFrom i (S n) = idsFrom i n ++ [Nat.iter n succId i].
Proof.
  revert i. induction n as [|n IH]; intros i; [reflexivity|].
  change (idsFrom i (S (S n))) with (i :: idsFrom (succId i) (S n)).
  rewrite IH, iter_succId_shift. reflexivity.
Qed.

(** Fewer ids than the counter has values: no id occurs twice. *)
Lemma idsFrom_NoDup (i : Z) (n : nat) :
  validId i -> Z.of_nat n <= MAX_COMMAND_ID -> NoDup (idsFrom i n).
Proof.
  intros Hi Hn. apply NoDup_alt. intros j k x Hj Hk.
  pose proof (lookup_lt_Some _ _ _ Hj) as Hjn.
  pose proof (lookup_lt_Some _ _ _ Hk) as Hkn.
  rewrite idsFrom_length in Hjn, Hkn.
  rewrite idsFrom_lookup in Hj, Hk by assumption.
  rewrite iter_succId in Hj, Hk by assumption.
  assert ((i - 1 + Z.of_nat j) mod MAX_COMMAND_ID =
          (i - 1 + Z.of_nat k) mod MAX_COMMAND_ID) as Heq.
  { injection Hj as Hj. injection Hk as Hk. lia. }
  unfold MAX_COMMAND_ID in *.
  rewrite (Z.mod_eq (i - 1 + Z.of_nat j)) in Heq by lia.
  rewrite (Z.mod_eq (i - 1 + Z.of_nat k)) in Heq by lia.
  lia.
Qed.

Lemma reachable_chained (s : SafeLibev) : reachable s -> chained s.
Proof.
  induction 1 as [self|c s Hs (i & Hi & Hids & Hnext)].
  - exists 1. split; [unfold validId, MAX_COMMAND_ID; lia|].
    split; reflexivity.
  - destruct (call_asyncHandler_or_not c) as [->|Hc].
    + destruct (perform_asyncHandler s) as (Hq & Hn).
      exists (nextCommandId s). unfold chained. rewrite Hq, Hn.
      split; [apply reachable_ids_valid, Hs|]. split; reflexivity.
    + destruct (perform_queue c s Hc)
        as [(Hq & Hn)|[(cb & Hq & Hn & _)|(k & Hq & Hn)]].
      * exists i. rewrite Hq, Hn. auto.
      * assert (Command.id (Command.new (nextCommandId s) cb) =
                nextCommandId s) as Hid.
        { apply Command_new_id_valid, reachable_ids_valid, Hs. }
        exists i. rewrite Hq, Hn. split; [exact Hi|].
        rewrite length_app, fmap_app.
        change (Command.id <$> [Command.new (nextCommandId s) cb])
          with [Command.id (Command.new (nextCommandId s) cb)].
        rewrite Hid. simpl length.
        rewrite Nat.add_1_r, idsFrom_snoc, Hids, Hnext.
        split; reflexivity.
      * exists i. rewrite Hq, Hn, alter_cancel_ids, length_alter. auto.
Qed.

(** In a reachable state with at most [MAX_COMMAND_ID] pending commands, no
    two pending commands have the same id. *)
Lemma reachable_ids_distinct (s : SafeLibev) :
  reachable s ->
  Z.of_nat (length (commands s)) <= MAX_COMMAND_ID ->
  NoDup (Command.id <$> commands s).
Proof.
  intros Hs Hlen. destruct (reachable_chained s Hs) as (i & Hi & -> & _).
  apply idsFrom_NoDup; assumption.
Qed.

(** ** Scenarios *)

Lemma invokeAll_app (cbs1 cbs2 : list Callback) (s : SafeLibev) :
  invokeAll (cbs1 ++ cbs2) s = (invokeAll cbs1 ;; invokeAll cbs2) s.
Proof.
  revert s. induction cbs1 as [|cb rest IH]; intros s; [reflexivity|].
  simpl. unfold bind in *. destruct (invoke cb s) as [[] s1|e s1];
    [apply IH|reflexivity].
Qed.

Lemma liveCallbacks_app (l1 l2 : list Command.t) :
  liveCallbacks (l1 ++ l2) = liveCallbacks l1 ++ liveCallbacks l2.
Proof. unfold liveCallbacks. rewrite filter_app, fmap_app. reflexivity. Qed.

(** A canceled command in the middle of the vector is skipped: the loop
    does what it would do were the command not there. *)
Lemma runLoop_skips_canceled (l1 l2 : list Command.t) (c : Command.t)
    (s : SafeLibev) :
  Command.canceled c = true ->
  runLoop (l1 ++ c :: l2) s = runLoop (l1 ++ l2) s.
Proof.
  intros Hc. rewrite !runLoop_liveCallbacks, !liveCallbacks_app.
  unfold liveCallbacks at 2. rewrite filter_cons, Hc. reflexivity.
Qed.

(** X3: [runSync], then a drain: the closures pending before are called in
    order, then the callback, once, and only after it the flag the caller
    waits on is set; until the drain the flag is false. *)
Lemma runSync_then_drain (tag done : nat) (tags : list nat) (s : SafeLibev) :
  liveCallbacks (commands s) = Closure <$> tags ->
  exists s1 s2,
    runSync (Closure tag) done s = Ok (Waiting done) s1 /\
    flags s1 !! done = Some false /\
    runCommands s1 = Ok tt s2 /\
    flags s2 !! done = Some true /\
    commands s2 = [] /\
    events s2 =
      events s ++ [EvAsyncSend] ++ (EvCall <$> tags) ++
      [EvCall tag; EvNotifyAll].
Proof.
  intros Hlive. rewrite runSync_eq by discriminate.
  rewrite submitAndWait_eq. eexists. eexists.
  split; [reflexivity|]. split.
  { simpl. rewrite flags_incNextCommandId. simpl. apply lookup_insert_eq. }
  unfold runCommands, drain. rewrite runLoop_liveCallbacks.
  cbn [commands emit]. rewrite commands_incNextCommandId.
  cbn [commands push_back set_commands set_flag].
  rewrite liveCallbacks_app, Hlive, invokeAll_app. unfold bind at 1.
  rewrite invokeAll_closures. cbn -[incNextCommandId].
  unfold bind, modify, notifyDone. cbn -[incNextCommandId].
  split; [reflexivity|]. cbn -[incNextCommandId].
  rewrite flags_incNextCommandId, events_incNextCommandId.
  cbn -[incNextCommandId].
  split; [apply lookup_insert_eq|]. split; [reflexivity|].
  rewrite <- !app_assoc. reflexivity.
Qed.

(** [runLater], then [cancelCommand] with the id it returned, then a drain:
    the closure is not called. *)
Example runLater_cancel_drain :
  let s0 := SafeLibev_new 0 in
  let s1 := state_of (runLater (Closure 7) s0) in
  let '(canceled, s2) := cancelCommand 1 s1 in
  runLater (Closure 7) s0 = Ok 1 s1 /\
  canceled = true /\
  events (state_of (runCommands s2)) = [EvAsyncStart; EvAsyncSend].
Proof. repeat split. Qed.

(** Canceling after the drain has taken the command returns false. *)
Example cancel_after_drain :
  let s1 := state_of (runLater (Closure 7) (SafeLibev_new 0)) in
  let m := mstep LDrainBegin (mkMachine s1 []) in
  (cancelCommand 1 (obj m)).1 = false /\
  events (obj (mstep LDrainNext m)) =
    [EvAsyncStart; EvAsyncSend; EvCall 7].
Proof. repeat split. Qed.

(** At the largest id the counter goes back to 1. *)
Example wraparound :
  let s := set_nextCommandId MAX_COMMAND_ID (SafeLibev_new 0) in
  exists s1 s2,
    runLater (Closure 1) s = Ok 268435455 s1 /\
    runLater (Closure 2) s1 = Ok 1 s2 /\
    Command.id <$> commands s2 = [268435455; 1].
Proof. eexists. eexists. repeat split. Qed.

(** ** Submissions that wait, and the drain that answers them *)

Lemma loopThread_incNextCommandId (s : SafeLibev) :
  loopThread (incNextCommandId s) = loopThread s.
Proof.
  unfold incNextCommandId.
  destruct (nextCommandId s =? MAX_COMMAND_ID); reflexivity.
Qed.

Lemma bind_ret_unit (m : M unit) (s : SafeLibev) : (m ;; ret tt) s = m s.
Proof. unfold bind, ret. destruct (m s) as [[] s1|e s1]; reflexivity. Qed.

Lemma liveCallbacks_new (n : Z) (cb : Callback) :
  liveCallbacks [Command.new n cb] = [cb].
Proof. reflexivity. Qed.

(** The drain that follows a submission: the closures pending before it are
    called in order, then the submitted callback. *)
Lemma drain_after_submit (cb : Callback) (tags : list nat) (s : SafeLibev) :
  liveCallbacks (commands s) = Closure <$> tags ->
  runCommands (emit EvAsyncSend (incNextCommandId (push_back cb s))) =
  invoke cb
    (mkSafeLibev (loopThread s) [] (succId (nextCommandId s)) (flags s)
       (events s ++ [EvAsyncSend] ++ (EvCall <$> tags))).
Proof.
  intros Hlive. unfold runCommands, drain. rewrite runLoop_liveCallbacks.
  cbn [commands emit]. rewrite commands_incNextCommandId.
  cbn [commands push_back set_commands].
  rewrite liveCallbacks_app, Hlive, liveCallbacks_new, invokeAll_app.
  unfold bind at 1. rewrite invokeAll_closures.
  cbn [invokeAll]. rewrite bind_ret_unit.
  cbn [loopThread commands nextCommandId flags events set_commands emit].
  rewrite loopThread_incNextCommandId, nextCommandId_incNextCommandId,
    flags_incNextCommandId, events_incNextCommandId.
  cbn [loopThread commands nextCommandId flags events push_back set_commands].
  rewrite <- app_assoc. reflexivity.
Qed.

Lemma start_off_thread (self w done : nat) (s : SafeLibev) :
  onEventLoopThread self s = false ->
  start self w done s =
  Ok (Waiting done)
     (emit EvAsyncSend
        (incNextCommandId
           (push_back (BindStartWatcherAndNotify w done)
              (set_flag done false s)))).
Proof. intros Hoff. unfold start. rewrite Hoff. reflexivity. Qed.

Lemma stop_off_thread (self w done : nat) (s : SafeLibev) :
  onEventLoopThread self s = false ->
  stop self w done s =
  Ok (Waiting done)
     (emit EvAsyncSend
        (incNextCommandId
           (push_back (BindStopWatcherAndNotify w done)
              (set_flag done false s)))).
Proof. intros Hoff. unfold stop. rewrite Hoff. reflexivity. Qed.

(** X1: [start] on the loop thread starts the watcher at once and touches
    neither the vector, the counter nor any flag. From another thread it
    starts nothing itself: it queues one command, signals the loop and waits
    on [done]; the next drain calls the closures pending before it, then
    starts the watcher, and only then sets [done]. *)
Theorem start_inline_or_deferred
    (self w done : nat) (tags : list nat) (s : SafeLibev) :
  liveCallbacks (commands s) = Closure <$> tags ->
  (onEventLoopThread self s = true ->
   start self w done s =
   Ok Returned (mkSafeLibev (loopThread s) (commands s) (nextCommandId s)
                  (flags s) (events s ++ [EvWatcherStart w]))) /\
  (onEventLoopThread self s = false ->
   exists s1 s2,
     start self w done s = Ok (Waiting done) s1 /\
     flags s1 !! done = Some false /\
     events s1 = events s ++ [EvAsyncSend] /\
     runCommands s1 = Ok tt s2 /\
     flags s2 !! done = Some true /\
     commands s2 = [] /\
     events s2 =
       events s ++ [EvAsyncSend] ++ (EvCall <$> tags) ++
       [EvWatcherStart w; EvNotifyAll]).
Proof.
  intros Hlive. split.
  - intros Hon. unfold start. rewrite Hon. reflexivity.
  - intros Hoff. rewrite (start_off_thread _ _ _ _ Hoff).
    eexists. eexists. split; [reflexivity|].
    split.
    { cbn [flags emit]. rewrite flags_incNextCommandId. apply lookup_insert_eq. }
    split.
    { cbn [events emit]. rewrite events_incNextCommandId. reflexivity. }
    rewrite (drain_after_submit _ tags (set_flag done false s) Hlive).
    split; [reflexivity|].
    split; [apply lookup_insert_eq|]. split; [reflexivity|].
    simpl. rewrite <- !app_assoc. reflexivity.
Qed.

Lemma start_inline_or_deferred_witness :
  exists s1 s2,
    start 5 8 9 threePending = Ok (Waiting 9) s1 /\
    runCommands s1 = Ok tt s2 /\
    flags s2 !! 9%nat = Some true /\
    events s2 =
      events threePending ++ [EvAsyncSend] ++ [EvCall 10; EvCall 12] ++
      [EvWatcherStart 8; EvNotifyAll].
Proof.
  destruct (proj2 (start_inline_or_deferred 5 8 9 [10; 12]%nat threePending
                     eq_refl) eq_refl)
    as (s1 & s2 & H1 & _ & _ & H2 & H3 & _ & H4).
  exists s1, s2. auto.
Defined.

(** X2: [stop] on the loop thread stops the watcher at once and touches
    neither the vector, the counter nor any flag. From another thread it
    queues one command, signals the loop and waits on [done]; the next drain
    calls the closures pending before it, then stops the watcher, and only
    then sets [done]. *)
Theorem stop_inline_or_deferred
    (self w done : nat) (tags : list nat) (s : SafeLibev) :
  liveCallbacks (commands s) = Closure <$> tags ->
  (onEventLoopThread self s = true ->
   stop self w done s =
   Ok Returned (mkSafeLibev (loopThread s) (commands s) (nextCommandId s)
                  (flags s) (events s ++ [EvWatcherStop w]))) /\
  (onEventLoopThread self s = false ->
   exists s1 s2,
     stop self w done s = Ok (Waiting done) s1 /\
     flags s1 !! done = Some false /\
     events s1 = events s ++ [EvAsyncSend] /\
     runCommands s1 = Ok tt s2 /\
     flags s2 !! done = Some true /\
     commands s2 = [] /\
     events s2 =
       events s ++ [EvAsyncSend] ++ (EvCall <$> tags) ++
       [EvWatcherStop w; EvNotifyAll]).
Proof.
  intros Hlive. split.
  - intros Hon. unfold stop. rewrite Hon. reflexivity.
  - intros Hoff. rewrite (stop_off_thread _ _ _ _ Hoff).
    eexists. eexists. split; [reflexivity|].
    split.
    { cbn [flags emit]. rewrite flags_incNextCommandId. apply lookup_insert_eq. }
    split.
    { cbn [events emit]. rewrite events_incNextCommandId. reflexivity. }
    rewrite (drain_after_submit _ tags (set_flag done false s) Hlive).
    split; [reflexivity|].
    split; [apply lookup_insert_eq|]. split; [reflexivity|].
    simpl. rewrite <- !app_assoc. reflexivity.
Qed.

Lemma stop_inline_or_deferred_witness :
  stop 0 8 9 threePending =
  Ok Returned (mkSafeLibev (loopThread threePending) (commands threePending)
                 (nextCommandId threePending) (flags threePending)
                 (events threePending ++ [EvWatcherStop 8])).
Proof.
  apply (proj1 (stop_inline_or_deferred 0 8 9 [10; 12]%nat threePending
                  eq_refl) eq_refl).
Defined.

Lemma runSync_then_drain_witness :
  exists s1 s2,
    runSync (Closure 4) 9 threePending = Ok (Waiting 9) s1 /\
    flags s1 !! 9%nat = Some false /\
    runCommands s1 = Ok tt s2 /\
    flags s2 !! 9%nat = Some true.
Proof.
  destruct (runSync_then_drain 4 9 [10; 12]%nat threePending eq_refl)
    as (s1 & s2 & H1 & H2 & H3 & H4 & _).
  exists s1, s2. auto.
Defined.

(** X4: [runSync] does not look at the calling thread: for a callback that
    is not empty it queues [runAndNotify], signals the loop and leaves its
    caller waiting, with the flag false and the callback not called, also
    when the caller is the loop thread itself. *)
Theorem runSync_always_defers
    (cb : Callback) (done self : nat) (s : SafeLibev) :
  cb ≠ NullCallback ->
  exists s',
    runSync cb done s = Ok (Waiting done) s' /\
    commands s' =
      commands s ++ [Command.new (nextCommandId s) (BindRunAndNotify cb done)] /\
    flags s' !! done = Some false /\
    events s' = events s ++ [EvAsyncSend] /\
    runSync cb done (set_loopThread self s) =
      Ok (Waiting done) (set_loopThread self s').
Proof.
  intros Hcb. rewrite !(runSync_eq _ _ _ Hcb), !submitAndWait_eq.
  eexists. split; [reflexivity|].
  cbn [commands flags events emit].
  rewrite commands_incNextCommandId, flags_incNextCommandId,
    events_incNextCommandId.
  split; [reflexivity|]. split; [apply lookup_insert_eq|].
  split; [reflexivity|].
  f_equal. unfold incNextCommandId. simpl.
  destruct (nextCommandId s =? MAX_COMMAND_ID); reflexivity.
Qed.

Lemma runSync_always_defers_witness :
  exists s',
    runSync (Closure 4) 9 threePending = Ok (Waiting 9) s' /\
    events s' = events threePending ++ [EvAsyncSend].
Proof.
  destruct (runSync_always_defers (Closure 4) 9 0 threePending)
    as (s' & H1 & _ & _ & H2 & _); [discriminate|].
  exists s'. auto.
Defined.

(** ** Order of submissions *)

Lemma perform_runLater_closure (t : nat) (s : SafeLibev) :
  perform (CallRunLater (Closure t)) s =
  emit EvAsyncSend (incNextCommandId (push_back (Closure t) s)).
Proof. reflexivity. Qed.

Lemma performAll_runLaterAll (tags : list nat) (s : SafeLibev) :
  let s1 := performAll (runLaterAll tags) s in
  liveCallbacks (commands s1) =
    liveCallbacks (commands s) ++ (Closure <$> tags) /\
  events s1 = events s ++ replicate (length tags) EvAsyncSend /\
  flags s1 = flags s /\
  loopThread s1 = loopThread s /\
  nextCommandId s1 = Nat.iter (length tags) succId (nextCommandId s).
Proof.
  revert s. induction tags as [|t rest IH]; intros s.
  - simpl. rewrite !app_nil_r. repeat split.
  - cbn [runLaterAll fmap list_fmap performAll foldl].
    specialize (IH (perform (CallRunLater (Closure t)) s)).
    unfold performAll, runLaterAll in IH. cbv zeta in IH.
    destruct IH as (H1 & H2 & H3 & H4 & H5).
    cbv zeta. rewrite H1, H2, H3, H4, H5, perform_runLater_closure.
    cbn [commands events flags loopThread nextCommandId emit].
    rewrite commands_incNextCommandId, events_incNextCommandId,
      flags_incNextCommandId, loopThread_incNextCommandId,
      nextCommandId_incNextCommandId.
    cbn [commands events flags loopThread nextCommandId push_back set_commands].
    rewrite liveCallbacks_app, liveCallbacks_new, <- !app_assoc.
    rewrite iter_succId_shift. repeat split.
Qed.

(** X5: closures handed to [runLater] one after the other, with no drain in
    between, are called by the next drain in the order of the calls, after
    the closures that were pending before; each call of [runLater] signals
    the loop once and calls nothing. *)
Theorem runLater_fifo (tags0 tags : list nat) (s : SafeLibev) :
  liveCallbacks (commands s) = Closure <$> tags0 ->
  events (performAll (runLaterAll tags) s) =
    events s ++ replicate (length tags) EvAsyncSend /\
  runCommands (performAll (runLaterAll tags) s) =
  Ok tt (mkSafeLibev (loopThread s) []
           (Nat.iter (length tags) succId (nextCommandId s)) (flags s)
           (events s ++ replicate (length tags) EvAsyncSend ++
            (EvCall <$> (tags0 ++ tags)))).
Proof.
  intros Hlive.
  destruct (performAll_runLaterAll tags s) as (H1 & H2 & H3 & H4 & H5).
  split; [exact H2|].
  unfold runCommands, drain. rewrite runLoop_liveCallbacks, H1, Hlive.
  rewrite <- fmap_app, invokeAll_closures.
  cbn [loopThread commands nextCommandId flags events set_commands].
  rewrite H2, H3, H4, H5, <- app_assoc. reflexivity.
Qed.

Lemma runLater_fifo_witness :
  runCommands (performAll (runLaterAll [21; 22; 23]%nat) threePending) =
  Ok tt (mkSafeLibev (loopThread threePending) []
           (Nat.iter 3 succId (nextCommandId threePending))
           (flags threePending)
           (events threePending ++ replicate 3 EvAsyncSend ++
            (EvCall <$> ([10; 12] ++ [21; 22; 23])%nat))).
Proof.
  apply (proj2 (runLater_fifo [10; 12]%nat [21; 22; 23]%nat threePending
                  eq_refl)).
Defined.

(** ** Ids of pending commands *)

Lemma chained_lookup (s : SafeLibev) (i : Z) (k : nat) (c : Command.t) :
  Command.id <$> commands s = idsFrom i (length (commands s)) ->
  commands s !! k = Some c ->
  Command.id c = Nat.iter k succId i.
Proof.
  intros Hids Hk. pose proof (lookup_lt_Some _ _ _ Hk) as Hlt.
  assert ((Command.id <$> commands s) !! k = Some (Command.id c)) as Hid.
  { rewrite list_lookup_fmap, Hk. reflexivity. }
  rewrite Hids, idsFrom_lookup in Hid by exact Hlt. congruence.
Qed.

(** X6: in every reachable state the ids of the pending commands follow one
    another as the counter does, the counter is the successor of the last
    pending id, and, with at most [MAX_COMMAND_ID] commands pending, no two
    pending commands have the same id. *)
Theorem pending_ids_consecutive (s : SafeLibev) :
  reachable s ->
  (forall k c c',
     commands s !! k = Some c -> commands s !! S k = Some c' ->
     Command.id c' = succId (Command.id c)) /\
  (forall c, last (commands s) = Some c ->
             nextCommandId s = succId (Command.id c)) /\
  (Z.of_nat (length (commands s)) <= MAX_COMMAND_ID ->
   NoDup (Command.id <$> commands s)).
Proof.
  intros Hs. destruct (reachable_chained s Hs) as (i & Hi & Hids & Hnext).
  split; [|split].
  - intros k c c' Hk Hk'.
    rewrite (chained_lookup s i _ _ Hids Hk), (chained_lookup s i _ _ Hids Hk').
    reflexivity.
  - intros c Hlast. rewrite last_lookup in Hlast.
    pose proof (lookup_lt_Some _ _ _ Hlast) as Hlt.
    rewrite (chained_lookup s i _ _ Hids Hlast), Hnext.
    destruct (length (commands s)) as [|n]; [simpl in Hlt; lia|reflexivity].
  - intros Hlen. rewrite Hids. apply idsFrom_NoDup; assumption.
Qed.

Lemma pending_ids_consecutive_witness :
  NoDup (Command.id <$> commands threePending).
Proof.
  refine (proj2 (proj2 (pending_ids_consecutive threePending _)) _).
  - apply reachable_performAll. constructor.
  - vm_compute. discriminate.
Defined.

(** X7: in a reachable state [cancelCommand] with an id outside
    [1 .. 268435455], an id the counter never takes, returns false and
    changes nothing. *)
Theorem cancelCommand_unassigned_id (id : Z) (s : SafeLibev) :
  reachable s ->
  ~ (1 <= id <= 268435455) ->
  cancelCommand id s = (false, s).
Proof.
  intros Hs Hid. destruct (Z.eq_dec id 0) as [->|Hne]; [reflexivity|].
  rewrite (cancelCommand_findCommand _ _ Hne).
  assert (findCommand id (commands s) = None) as ->; [|reflexivity].
  apply findCommand_None. intros c Hc <-.
  destruct (reachable_ids_valid s Hs) as (_ & Hids).
  rewrite Forall_forall in Hids. apply Hid. apply (Hids (Command.id c)).
  apply list_elem_of_fmap. exists c. split; [reflexivity|exact Hc].
Qed.

Lemma cancelCommand_unassigned_id_witness :
  cancelCommand 268435456 threePending = (false, threePending).
Proof.
  apply cancelCommand_unassigned_id.
  - apply reachable_performAll. constructor.
  - lia.
Defined.

Lemma commands_runCommands (s : SafeLibev) :
  commands (state_of (runCommands s)) = [].
Proof. apply (perform_asyncHandler s). Qed.

(** X8: once a drain has taken the vector, [cancelCommand] returns false for
    every id and changes nothing, whether the drain ended normally or by an
    exception. *)
Theorem cancelCommand_after_drain (id : Z) (s : SafeLibev) :
  cancelCommand id (state_of (runCommands s)) =
  (false, state_of (runCommands s)).
Proof.
  unfold cancelCommand. destruct (id =? 0); [reflexivity|].
  rewrite commands_runCommands. simpl.
  rewrite <- (commands_runCommands s) at 1. rewrite set_commands_same.
  reflexivity.
Qed.

Lemma liveCallbacks_all_canceled (cmds : list Command.t) :
  (forall c, c ∈ cmds -> Command.canceled c = true) ->
  liveCallbacks cmds = [].
Proof.
  induction cmds as [|c rest IH]; intros Hall; [reflexivity|].
  unfold liveCallbacks. rewrite filter_cons, (Hall c) by left.
  simpl. apply IH. intros c' Hc'. apply Hall. right. exact Hc'.
Qed.

(** X9: a drain of a vector that is empty or holds only canceled commands
    calls nothing: it returns with the vector empty and everything else,
    events included, as before. *)
Theorem runCommands_nothing_live (s : SafeLibev) :
  (forall c, c ∈ commands s -> Command.canceled c = true) ->
  runCommands s = Ok tt (set_commands [] s).
Proof.
  intros Hall. unfold runCommands, drain.
  rewrite runLoop_liveCallbacks, (liveCallbacks_all_canceled _ Hall).
  reflexivity.
Qed.

Lemma runCommands_nothing_live_witness :
  runCommands canceledOnce = Ok tt (set_commands [] canceledOnce).
Proof.
  apply runCommands_nothing_live. intros c Hc.
  change (commands canceledOnce) with [Command.mk (Closure 7) 1 true] in Hc.
  apply list_elem_of_singleton in Hc. subst c. reflexivity.
Defined.

(** ** Between two drains *)

Lemma perform_keeps_place (c : Call) (s : SafeLibev) (k : nat)
    (cmd : Command.t) :
  noDrain c = true ->
  commands s !! k = Some cmd ->
  exists cmd',
    commands (perform c s) !! k = Some cmd' /\
    Command.id cmd' = Command.id cmd /\
    Command.callback cmd' = Command.callback cmd /\
    (Command.canceled cmd = true -> Command.canceled cmd' = true).
Proof.
  intros Hc Hk.
  assert (c ≠ CallAsyncHandler) as Hne by (intros ->; discriminate).
  destruct (perform_queue c s Hne)
    as [(-> & _)|[(cb & -> & _)|(j & -> & _)]].
  - exists cmd. auto.
  - exists cmd. split; [|auto].
    rewrite lookup_app_l by (apply (lookup_lt_Some _ _ _ Hk)). exact Hk.
  - rewrite list_lookup_alter. destruct (decide (j = k)) as [->|Hjk].
    + exists (Command.cancel cmd). rewrite Hk. simpl. auto.
    + exists cmd. auto.
Qed.

(** X10: as long as no drain runs, the calls of all threads leave every
    pending command at its place in the vector, with its id and its
    callback; a command that is canceled stays canceled. *)
Theorem pending_commands_keep_place
    (cs : list Call) (s : SafeLibev) (k : nat) (cmd : Command.t) :
  Forall (fun c => noDrain c = true) cs ->
  commands s !! k = Some cmd ->
  exists cmd',
    commands (performAll cs s) !! k = Some cmd' /\
    Command.id cmd' = Command.id cmd /\
    Command.callback cmd' = Command.callback cmd /\
    (Command.canceled cmd = true -> Command.canceled cmd' = true).
Proof.
  intros Hcs. revert s cmd.
  induction Hcs as [|c rest Hc _ IH]; intros s cmd Hk.
  - exists cmd. auto.
  - destruct (perform_keeps_place c s k cmd Hc Hk)
      as (cmd1 & Hk1 & Hid1 & Hcb1 & Hcan1).
    destruct (IH _ _ Hk1) as (cmd2 & Hk2 & Hid2 & Hcb2 & Hcan2).
    exists cmd2. split; [exact Hk2|].
    split; [congruence|]. split; [congruence|]. auto.
Qed.

Lemma pending_commands_keep_place_witness :
  exists cmd',
    commands
      (performAll [CallRunLater (Closure 13); CallCancelCommand 1;
                   CallRunSync (Closure 14) 9] threePending) !! 1%nat =
      Some cmd' /\
    Command.id cmd' = 2 /\ Command.canceled cmd' = true.
Proof.
  destruct (pending_commands_keep_place
              [CallRunLater (Closure 13); CallCancelCommand 1;
               CallRunSync (Closure 14) 9]
              threePending 1 (Command.mk (Closure 11) 2 true))
    as (cmd' & H1 & H2 & _ & H3).
  - repeat constructor.
  - reflexivity.
  - exists cmd'. split; [exact H1|]. split; [exact H2|]. apply H3. reflexivity.
Defined.

Lemma liveCallbacks_canceled (c : Command.t) :
  liveCallbacks [Command.cancel c] = [].
Proof. reflexivity. Qed.

(** X11: in a reachable state with fewer than [MAX_COMMAND_ID] commands
    pending, [cancelCommand] with the id that [runLater] has just returned
    returns true and marks exactly the command that [runLater] appended: the
    callbacks a drain will call are those it would have called without the
    submission. *)
Theorem runLater_then_cancelCommand (cb : Callback) (s : SafeLibev) :
  reachable s ->
  Z.of_nat (length (commands s)) < MAX_COMMAND_ID ->
  cb ≠ NullCallback ->
  exists s1 s2,
    runLater cb s = Ok (nextCommandId s) s1 /\
    cancelCommand (nextCommandId s) s1 = (true, s2) /\
    commands s2 =
      commands s ++ [Command.cancel (Command.new (nextCommandId s) cb)] /\
    liveCallbacks (commands s2) = liveCallbacks (commands s).
Proof.
  intros Hs Hlen Hcb.
  pose proof (reachable_perform (CallRunLater cb) s Hs) as Hs1.
  simpl in Hs1. rewrite (runLater_eq cb s Hcb) in *. simpl in Hs1.
  set (new := Command.new (nextCommandId s) cb) in *.
  set (s1 := emit EvAsyncSend (incNextCommandId (push_back cb s))) in *.
  assert (commands s1 = commands s ++ [new]) as Hq.
  { unfold s1. cbn [commands emit]. rewrite commands_incNextCommandId.
    reflexivity. }
  destruct (reachable_ids_valid s Hs) as (Hnext & _).
  assert (Command.id new = nextCommandId s) as Hid
    by (apply Command_new_id_valid, Hnext).
  assert (findCommand (nextCommandId s) (commands s1) =
          Some (length (commands s))) as Hfind.
  { rewrite <- Hid. apply findCommand_NoDup.
    - apply reachable_ids_distinct; [exact Hs1|].
      rewrite Hq, length_app. simpl. lia.
    - rewrite Hq. apply list_lookup_middle. reflexivity. }
  exists s1. eexists. split; [reflexivity|].
  assert (nextCommandId s ≠ 0) as Hne by (unfold validId in Hnext; lia).
  rewrite (cancelCommand_findCommand _ _ Hne), Hfind.
  split; [reflexivity|]. cbn [commands set_commands]. rewrite Hq.
  assert (alter Command.cancel (length (commands s)) (commands s ++ [new]) =
          commands s ++ [Command.cancel new]) as ->.
  { replace (length (commands s)) with (length (commands s) + 0)%nat by lia.
    rewrite alter_app_r. reflexivity. }
  split; [reflexivity|].
  rewrite liveCallbacks_app, liveCallbacks_canceled, app_nil_r. reflexivity.
Qed.

Lemma runLater_then_cancelCommand_witness :
  exists s1 s2,
    runLater (Closure 13) threePending = Ok 4 s1 /\
    cancelCommand 4 s1 = (true, s2) /\
    liveCallbacks (commands s2) = liveCallbacks (commands threePending).
Proof.
  destruct (runLater_then_cancelCommand (Closure 13) threePending)
    as (s1 & s2 & H1 & H2 & _ & H3).
  - apply reachable_performAll. constructor.
  - vm_compute. reflexivity.
  - discriminate.
  - exists s1, s2. auto.
Defined.

(** ** The id counter as a cycle *)

Lemma iter_succId_period (i : Z) (k : nat) :
  validId i ->
  Nat.iter k succId i = i <-> Z.of_nat k mod MAX_COMMAND_ID = 0.
Proof.
  intros Hi. rewrite (iter_succId i k Hi).
  unfold validId, MAX_COMMAND_ID in *.
  pose proof (Z.mod_pos_bound (i - 1 + Z.of_nat k) 268435455 ltac:(lia)).
  pose proof (Z.mod_pos_bound (Z.of_nat k) 268435455 ltac:(lia)).
  pose proof (Z.div_mod (i - 1 + Z.of_nat k) 268435455 ltac:(lia)).
  pose proof (Z.div_mod (Z.of_nat k) 268435455 ltac:(lia)).
  lia.
Qed.

(** X12: the counter is a cycle of length [MAX_COMMAND_ID]: starting from a
    value in [1 .. MAX_COMMAND_ID], [k] steps of [incNextCommandId] lead back
    to that value exactly when [k] is a multiple of [MAX_COMMAND_ID]. *)
Theorem id_counter_period (k : nat) (s : SafeLibev) :
  validId (nextCommandId s) ->
  nextCommandId (Nat.iter k incNextCommandId s) = nextCommandId s <->
  Z.of_nat k mod MAX_COMMAND_ID = 0.
Proof.
  intros Hi. rewrite <- (iter_succId_period _ k Hi).
  assert (nextCommandId (Nat.iter k incNextCommandId s) =
          Nat.iter k succId (nextCommandId s)) as ->; [|reflexivity].
  induction k as [|k IH]; [reflexivity|].
  rewrite !Nat.iter_succ, nextCommandId_incNextCommandId, IH. reflexivity.
Qed.

Lemma id_counter_period_witness :
  nextCommandId (Nat.iter 3 incNextCommandId threePending) =
    nextCommandId threePending <->
  Z.of_nat 3 mod MAX_COMMAND_ID = 0.
Proof.
  apply (id_counter_period 3 threePending).
  unfold validId, MAX_COMMAND_ID.
  change (nextCommandId threePending) with 4. lia.
Defined.

(** With [MAX_COMMAND_ID] commands pending, the counter has come back to the
    id of the oldest one. *)
Lemma reachable_full_vector (s : SafeLibev) :
  reachable s ->
  Z.of_nat (length (commands s)) = MAX_COMMAND_ID ->
  exists c0 rest,
    commands s = c0 :: rest /\ Command.id c0 = nextCommandId s.
Proof.
  intros Hs Hlen. destruct (reachable_chained s Hs) as (i & Hi & Hids & Hnext).
  destruct (commands s) as [|c0 rest] eqn:Hq.
  - simpl in Hlen. unfold MAX_COMMAND_ID in Hlen. lia.
  - exists c0, rest. split; [reflexivity|].
    simpl in Hids. injection Hids as Hc0 _. rewrite Hc0, Hnext.
    symmetry. apply iter_succId_period; [exact Hi|].
    rewrite Hlen. reflexivity.
Qed.

(** ** Ids that come round again *)

(** X13: when the counter has come round to the id of the oldest pending
    command, [runLater] hands out that id again, and [cancelCommand] with the
    returned id returns true but marks the oldest command: the command just
    submitted stays live and the next drain calls its callback. *)
Theorem cancelCommand_after_id_reuse
    (c0 : Command.t) (rest : list Command.t) (cb : Callback) (s : SafeLibev) :
  commands s = c0 :: rest ->
  Command.id c0 = nextCommandId s ->
  validId (nextCommandId s) ->
  cb ≠ NullCallback ->
  exists s1 s2,
    runLater cb s = Ok (Command.id c0) s1 /\
    cancelCommand (Command.id c0) s1 = (true, s2) /\
    commands s2 =
      Command.cancel c0 :: rest ++ [Command.new (nextCommandId s) cb] /\
    liveCallbacks (commands s2) = liveCallbacks rest ++ [cb].
Proof.
  intros Hq Hid Hvalid Hcb. rewrite (runLater_eq cb s Hcb), Hid.
  set (s1 := emit EvAsyncSend (incNextCommandId (push_back cb s))).
  exists s1.
  exists (set_commands
            (Command.cancel c0 :: rest ++ [Command.new (nextCommandId s) cb])
            s1).
  split; [reflexivity|].
  assert (nextCommandId s ≠ 0) as Hne by (unfold validId in Hvalid; lia).
  assert (commands s1 = c0 :: rest ++ [Command.new (nextCommandId s) cb])
    as Hq1.
  { unfold s1. cbn [commands emit]. rewrite commands_incNextCommandId.
    cbn [commands push_back set_commands]. rewrite Hq. reflexivity. }
  rewrite (cancelCommand_findCommand _ _ Hne), Hq1.
  cbn [findCommand]. rewrite Hid, Z.eqb_refl.
  split; [reflexivity|]. cbn [commands set_commands].
  split; [reflexivity|].
  change (Command.cancel c0 :: rest ++ [Command.new (nextCommandId s) cb])
    with ([Command.cancel c0] ++ rest ++ [Command.new (nextCommandId s) cb]).
  rewrite !liveCallbacks_app, liveCallbacks_canceled, liveCallbacks_new.
  reflexivity.
Qed.

Lemma cancelCommand_after_id_reuse_witness :
  exists s1 s2,
    runLater (Closure 13) reusedId = Ok 1 s1 /\
    cancelCommand 1 s1 = (true, s2) /\
    liveCallbacks (commands s2) = [Closure 12; Closure 13].
Proof.
  destruct (cancelCommand_after_id_reuse
              (Command.mk (Closure 10) 1 false)
              [Command.mk (Closure 11) 2 true; Command.mk (Closure 12) 3 false]
              (Closure 13) reusedId)
    as (s1 & s2 & H1 & H2 & _ & H3).
  - reflexivity.
  - reflexivity.
  - unfold validId, MAX_COMMAND_ID. simpl. lia.
  - discriminate.
  - exists s1, s2. auto.
Defined.

(** ** A timer armed from another thread *)

(** X14: [runAfterTS] from another thread, with a callback that is not
    empty, arms no timer itself: it queues one command and signals the loop.
    The next drain calls the closures pending before it and then arms the
    timer, exactly once, without calling the callback; the callback runs
    when the timer fires, in [timeoutHandler]. *)
Theorem runAfterTS_then_drain
    (self : nat) (timeout : Z) (cb : Callback) (tags : list nat)
    (s : SafeLibev) :
  cb ≠ NullCallback ->
  onEventLoopThread self s = false ->
  liveCallbacks (commands s) = Closure <$> tags ->
  exists s1 s2,
    runAfterTS self timeout cb s = Ok tt s1 /\
    events s1 = events s ++ [EvAsyncSend] /\
    runCommands s1 = Ok tt s2 /\
    commands s2 = [] /\
    events s2 =
      events s ++ [EvAsyncSend] ++ (EvCall <$> tags) ++ [EvOnce timeout cb] /\
    forall tag, cb = Closure tag ->
      timeoutHandler cb s2 =
      Ok tt (mkSafeLibev (loopThread s2) [] (nextCommandId s2) (flags s2)
               (events s2 ++ [EvCall tag])).
Proof.
  intros Hcb Hoff Hlive. rewrite (runAfterTS_off_thread _ _ _ _ Hcb Hoff).
  eexists. eexists. split; [reflexivity|].
  split.
  { cbn [events emit]. rewrite events_incNextCommandId. reflexivity. }
  rewrite (drain_after_submit _ tags s Hlive).
  cbn [invoke]. rewrite (runAfter_eq _ _ _ Hcb).
  split; [reflexivity|]. split; [reflexivity|].
  split; [simpl; rewrite <- !app_assoc; reflexivity|].
  intros tag ->. reflexivity.
Qed.

Lemma runAfterTS_then_drain_witness :
  exists s1 s2,
    runAfterTS 5 50 (Closure 4) threePending = Ok tt s1 /\
    runCommands s1 = Ok tt s2 /\
    events s2 =
      events threePending ++ [EvAsyncSend] ++ [EvCall 10; EvCall 12] ++
      [EvOnce 50 (Closure 4)].
Proof.
  destruct (runAfterTS_then_drain 5 50 (Closure 4) [10; 12]%nat threePending)
    as (s1 & s2 & H1 & _ & H2 & _ & H3 & _).
  - discriminate.
  - reflexivity.
  - reflexivity.
  - exists s1, s2. auto.
Defined.

(** ** Canceling a command that a caller waits for *)

(** The command appended last is the one its own id finds, where ids are
    distinct. *)
Lemma cancelCommand_last (q : list Command.t) (new : Command.t)
    (s1 : SafeLibev) :
  commands s1 = q ++ [new] ->
  Command.id new ≠ 0 ->
  NoDup (Command.id <$> commands s1) ->
  cancelCommand (Command.id new) s1 =
  (true, set_commands (q ++ [Command.cancel new]) s1).
Proof.
  intros Hq Hne Hnd. rewrite (cancelCommand_findCommand _ _ Hne).
  rewrite (findCommand_NoDup _ (length q) new Hnd)
    by (rewrite Hq; apply list_lookup_middle; reflexivity).
  rewrite Hq. replace (length q) with (length q + 0)%nat by lia.
  rewrite alter_app_r. reflexivity.
Qed.

(** X15: [cancelCommand] does not tell the commands of [runLater] from those
    of [runSync]: in a reachable state with fewer than [MAX_COMMAND_ID]
    commands pending, canceling the id that the counter showed when
    [runSync] was called returns true, and the next drain then neither calls
    the callback nor sets the flag the caller of [runSync] waits on. *)
Theorem cancelCommand_strands_runSync
    (tag done : nat) (tags : list nat) (s : SafeLibev) :
  reachable s ->
  Z.of_nat (length (commands s)) < MAX_COMMAND_ID ->
  liveCallbacks (commands s) = Closure <$> tags ->
  exists s1 s2 s3,
    runSync (Closure tag) done s = Ok (Waiting done) s1 /\
    cancelCommand (nextCommandId s) s1 = (true, s2) /\
    runCommands s2 = Ok tt s3 /\
    flags s3 !! done = Some false /\
    events s3 = events s ++ [EvAsyncSend] ++ (EvCall <$> tags).
Proof.
  intros Hs Hlen Hlive.
  pose proof (reachable_perform (CallRunSync (Closure tag) done) s Hs) as Hs1.
  cbn [perform] in Hs1.
  rewrite runSync_eq in * by discriminate. rewrite submitAndWait_eq in *.
  cbn [state_of] in Hs1.
  set (new := Command.new (nextCommandId s)
                (BindRunAndNotify (Closure tag) done)) in *.
  set (s1 := emit EvAsyncSend
               (incNextCommandId
                  (push_back (BindRunAndNotify (Closure tag) done)
                     (set_flag done false s)))) in *.
  assert (commands s1 = commands s ++ [new]) as Hq.
  { unfold s1. cbn [commands emit]. rewrite commands_incNextCommandId.
    reflexivity. }
  destruct (reachable_ids_valid s Hs) as (Hnext & _).
  assert (Command.id new = nextCommandId s) as Hid
    by (apply Command_new_id_valid, Hnext).
  assert (cancelCommand (nextCommandId s) s1 =
          (true, set_commands (commands s ++ [Command.cancel new]) s1))
    as Hcancel.
  { rewrite <- Hid. apply cancelCommand_last; [exact Hq| |].
    - rewrite Hid. unfold validId in Hnext. lia.
    - apply reachable_ids_distinct; [exact Hs1|].
      rewrite Hq, length_app. simpl. lia. }
  exists s1. eexists. eexists. split; [reflexivity|].
  split; [exact Hcancel|].
  unfold runCommands, drain. rewrite runLoop_liveCallbacks.
  cbn [commands set_commands].
  rewrite liveCallbacks_app, liveCallbacks_canceled, app_nil_r, Hlive.
  rewrite invokeAll_closures. split; [reflexivity|].
  cbn [flags events set_commands]. unfold s1. cbn [flags events emit].
  rewrite flags_incNextCommandId, events_incNextCommandId.
  cbn [flags events push_back set_commands set_flag].
  split; [apply lookup_insert_eq|]. rewrite <- app_assoc. reflexivity.
Qed.

Lemma cancelCommand_strands_runSync_witness :
  exists s1 s2 s3,
    runSync (Closure 4) 9 threePending = Ok (Waiting 9) s1 /\
    cancelCommand 4 s1 = (true, s2) /\
    runCommands s2 = Ok tt s3 /\
    flags s3 !! 9%nat = Some false.
Proof.
  destruct (cancelCommand_strands_runSync 4 9 [10; 12]%nat threePending)
    as (s1 & s2 & s3 & H1 & H2 & H3 & H4 & _).
  - apply reachable_performAll. constructor.
  - vm_compute. reflexivity.
  - reflexivity.
  - exists s1, s2, s3. auto.
Defined.

(** ** The loop thread *)

Lemma loopThread_runCommands (s : SafeLibev) :
  loopThread (state_of (runCommands s)) = loopThread s.
Proof.
  unfold runCommands, drain. rewrite runLoop_liveCallbacks.
  apply (invokeAll_frame (liveCallbacks (commands s)) (set_commands [] s)).
Qed.

Lemma perform_loopThread (c : Call) (s : SafeLibev) :
  relocates c = false -> loopThread (perform c s) = loopThread s.
Proof.
  intros Hc.
  destruct c as [self w done|self w done|self cb done|cb done|timeout cb
                |self timeout cb|cb|id|self| | ]; simpl in *;
    try (destruct (callback_null_or_not cb) as [->|Hcb]; [reflexivity|]).
  - unfold start. destruct (onEventLoopThread self s); [reflexivity|].
    rewrite submitAndWait_eq. cbn [state_of loopThread emit].
    rewrite loopThread_incNextCommandId. reflexivity.
  - unfold stop. destruct (onEventLoopThread self s); [reflexivity|].
    rewrite submitAndWait_eq. cbn [state_of loopThread emit].
    rewrite loopThread_incNextCommandId. reflexivity.
  - destruct (onEventLoopThread self s) eqn:Hon.
    + rewrite (run_on_thread _ _ _ _ Hcb Hon), state_of_bind_ret.
      apply invoke_frame.
    + rewrite (run_off_thread _ _ _ _ Hcb Hon), submitAndWait_eq.
      cbn [state_of loopThread emit]. rewrite loopThread_incNextCommandId. reflexivity.
  - rewrite (runSync_eq _ _ _ Hcb), submitAndWait_eq.
    cbn [state_of loopThread emit]. rewrite loopThread_incNextCommandId. reflexivity.
  - rewrite (runAfter_eq _ _ _ Hcb). reflexivity.
  - destruct (onEventLoopThread self s) eqn:Hon.
    + rewrite (runAfterTS_on_thread _ _ _ _ Hcb Hon). reflexivity.
    + rewrite (runAfterTS_off_thread _ _ _ _ Hcb Hon).
      cbn [state_of loopThread emit]. rewrite loopThread_incNextCommandId. reflexivity.
  - rewrite (runLater_eq _ _ Hcb).
    cbn [state_of loopThread emit]. rewrite loopThread_incNextCommandId. reflexivity.
  - unfold cancelCommand. destruct (id =? 0); [reflexivity|].
    destruct (cancelScan id (commands s)). reflexivity.
  - discriminate.
  - reflexivity.
  - apply loopThread_runCommands.
Qed.

(** X16: the thread that constructs the object is its loop thread, and only
    [setCurrentThread] changes that: after any calls and drains among which
    there is no [setCurrentThread], [onEventLoopThread] answers every thread
    as before; after [setCurrentThread] it answers true to the thread that
    called it and false to every other. *)
Theorem loop_thread_moves_only_by_setCurrentThread
    (cs : list Call) (self t : nat) (s : SafeLibev) :
  Forall (fun c => relocates c = false) cs ->
  onEventLoopThread t (performAll cs s) = onEventLoopThread t s /\
  onEventLoopThread t (performAll cs (SafeLibev_new self)) = Nat.eqb t self /\
  onEventLoopThread t
    (performAll cs (perform (CallSetCurrentThread self) s)) = Nat.eqb t self.
Proof.
  intros Hcs.
  assert (forall s0, loopThread (performAll cs s0) = loopThread s0) as Hframe.
  { induction Hcs as [|c rest Hc _ IH]; intros s0; [reflexivity|].
    simpl. rewrite IH. apply perform_loopThread, Hc. }
  unfold onEventLoopThread. rewrite !Hframe. repeat split.
Qed.

Lemma loop_thread_moves_only_by_setCurrentThread_witness :
  onEventLoopThread 0
    (performAll [CallRunLater (Closure 1); CallAsyncHandler; CallStart 3 4 5]
       threePending) =
  onEventLoopThread 0 threePending.
Proof.
  apply (loop_thread_moves_only_by_setCurrentThread
           [CallRunLater (Closure 1); CallAsyncHandler; CallStart 3 4 5]
           0 0 threePending).
  repeat constructor.
Defined.

(** ** The thread test with thread-local storage *)

(** X17: with thread-local storage, as long as every thread's signature is
    either unset or says [this] exactly for the loop thread,
    [onEventLoopThread] answers as the [pthread_equal] test does; and right
    after [setCurrentThread] it answers true to the calling thread. *)
Theorem signature_test_agrees (this self : nat) (a : Signature.t) :
  (forall th sig, Signature.thread_signature a th = Some sig ->
                  (sig = this <-> th = Signature.loopThread a)) ->
  Signature.onEventLoopThread this self a = Signature.pthreadTest self a /\
  Signature.onEventLoopThread this self
    (Signature.setCurrentThread this self a) = true.
Proof.
  intros Hsig. split.
  - unfold Signature.onEventLoopThread, Signature.pthreadTest.
    destruct (Signature.thread_signature a self) as [sig|] eqn:Hs;
      [|reflexivity].
    specialize (Hsig self sig Hs).
    destruct (Nat.eqb_spec sig this) as [Heq|Hne],
             (Nat.eqb_spec self (Signature.loopThread a)) as [Heq'|Hne'];
      try reflexivity.
    + exfalso. apply Hne', Hsig, Heq.
    + exfalso. apply Hne, Hsig, Heq'.
  - unfold Signature.onEventLoopThread, Signature.setCurrentThread. simpl.
    rewrite !Nat.eqb_refl. reflexivity.
Qed.

Lemma signature_test_agrees_witness :
  Signature.onEventLoopThread 100 7
    (Signature.mk 7 (fun th => if Nat.eqb th 7 then Some 100%nat else None)) =
  Signature.pthreadTest 7
    (Signature.mk 7 (fun th => if Nat.eqb th 7 then Some 100%nat else None)).
Proof.
  apply signature_test_agrees. intros th sig. simpl.
  destruct (Nat.eqb_spec th 7) as [->|Hne].
  - intros [= <-]. split; reflexivity.
  - discriminate.
Defined.

(** X18: with thread-local storage the signature of a thread is never
    cleared: after thread [a1] and then another thread [a2] have called
    [setCurrentThread] on the same object, [onEventLoopThread] still answers
    true to [a1], although the loop thread is [a2] and the [pthread_equal]
    test answers false. *)
Theorem signature_stays_after_relocation
    (this a1 a2 : nat) (a : Signature.t) :
  a1 ≠ a2 ->
  let a' := Signature.setCurrentThread this a2
              (Signature.setCurrentThread this a1 a) in
  Signature.loopThread a' = a2 /\
  Signature.onEventLoopThread this a2 a' = true /\
  Signature.onEventLoopThread this a1 a' = true /\
  Signature.pthreadTest a1 a' = false.
Proof.
  intros Hne. simpl. unfold Signature.onEventLoopThread,
    Signature.pthreadTest. simpl.
  rewrite !Nat.eqb_refl.
  destruct (Nat.eqb_spec a1 a2) as [Heq|_]; [contradiction|].
  rewrite Nat.eqb_refl. repeat split.
Qed.

Lemma signature_stays_after_relocation_witness :
  Signature.onEventLoopThread 100 1
    (Signature.setCurrentThread 100 2
       (Signature.setCurrentThread 100 1 (Signature.mk 0 (fun _ => None)))) =
  true.
Proof.
  refine (proj1 (proj2 (proj2
    (signature_stays_after_relocation 100 1 2
       (Signature.mk 0 (fun _ => None)) _)))).
  lia.
Defined.

(** ** Exceptions in a drain *)

Lemma invoke_sound (cb : Callback) (s : SafeLibev) :
  sound cb = true -> exists s', invoke cb s = Ok tt s'.
Proof.
  revert s. induction cb as [|t|timeout cb _|cb IH done|w done|w done];
    intros s Hcb; simpl in *; try discriminate.
  - eexists. reflexivity.
  - unfold_M. destruct (is_null cb); [discriminate|]. eexists. reflexivity.
  - destruct (IH s Hcb) as (s1 & Hs1). unfold bind. rewrite Hs1.
    eexists. reflexivity.
  - eexists. reflexivity.
  - eexists. reflexivity.
Qed.

Lemma runLoop_sound (cmds : list Command.t) (s : SafeLibev) :
  Forall (fun c => sound (Command.callback c) = true) cmds ->
  exists s', runLoop cmds s = Ok tt s'.
Proof.
  intros H. revert s. induction H as [|c rest Hc _ IH]; intros s; simpl.
  - eexists. reflexivity.
  - unfold bind, iteration. destruct (Command.canceled c); simpl.
    + apply IH.
    + destruct (invoke_sound _ s Hc) as (s1 & ->). apply IH.
Qed.

Lemma userCallback_sound (cb : Callback) :
  userCallback cb = true -> cb ≠ NullCallback -> sound cb = true.
Proof. destruct cb; simpl; congruence. Qed.

Lemma sound_alter_cancel (k : nat) (cmds : list Command.t) :
  Forall (fun c => sound (Command.callback c) = true) cmds ->
  Forall (fun c => sound (Command.callback c) = true)
         (alter Command.cancel k cmds).
Proof.
  intros H. revert k. induction H as [|c rest Hc Hrest IH]; intros [|k]; simpl.
  - constructor.
  - constructor.
  - constructor; [exact Hc|exact Hrest].
  - constructor; [exact Hc|apply IH].
Qed.

(** A call of a caller queues only callbacks that cannot throw. *)
Lemma perform_sound (c : Call) (s : SafeLibev) :
  userCall c = true ->
  Forall (fun c => sound (Command.callback c) = true) (commands s) ->
  Forall (fun c => sound (Command.callback c) = true) (commands (perform c s)).
Proof.
  intros Hc Hq.
  assert (forall cb,
            sound cb = true ->
            Forall (fun c => sound (Command.callback c) = true)
              (commands s ++ [Command.new (nextCommandId s) cb])) as Hpush.
  { intros cb Hcb. apply Forall_app. split; [exact Hq|].
    constructor; [exact Hcb|constructor]. }
  destruct c as [self w done|self w done|self cb done|cb done|timeout cb
                |self timeout cb|cb|id|self| | ]; simpl in *;
    try (destruct (callback_null_or_not cb) as [->|Hcb]; [exact Hq|]).
  - unfold start. destruct (onEventLoopThread self s); [exact Hq|].
    rewrite submitAndWait_eq. cbn [state_of commands emit].
    rewrite commands_incNextCommandId. apply Hpush. reflexivity.
  - unfold stop. destruct (onEventLoopThread self s); [exact Hq|].
    rewrite submitAndWait_eq. cbn [state_of commands emit].
    rewrite commands_incNextCommandId. apply Hpush. reflexivity.
  - destruct (onEventLoopThread self s) eqn:Hon.
    + rewrite (run_on_thread _ _ _ _ Hcb Hon), state_of_bind_ret.
      destruct (invoke_frame cb s) as (-> & _). exact Hq.
    + rewrite (run_off_thread _ _ _ _ Hcb Hon), submitAndWait_eq.
      cbn [state_of commands emit]. rewrite commands_incNextCommandId.
      apply Hpush. simpl. apply userCallback_sound; assumption.
  - rewrite (runSync_eq _ _ _ Hcb), submitAndWait_eq.
    cbn [state_of commands emit]. rewrite commands_incNextCommandId.
    apply Hpush. simpl. apply userCallback_sound; assumption.
  - rewrite (runAfter_eq _ _ _ Hcb). exact Hq.
  - destruct (onEventLoopThread self s) eqn:Hon.
    + rewrite (runAfterTS_on_thread _ _ _ _ Hcb Hon). exact Hq.
    + rewrite (runAfterTS_off_thread _ _ _ _ Hcb Hon).
      cbn [state_of commands emit]. rewrite commands_incNextCommandId.
      apply Hpush. simpl. rewrite (is_null_false _ Hcb). reflexivity.
  - rewrite (runLater_eq _ _ Hcb).
    cbn [state_of commands emit]. rewrite commands_incNextCommandId.
    apply Hpush, userCallback_sound; assumption.
  - unfold cancelCommand. destruct (id =? 0); [exact Hq|].
    rewrite cancelScan_findCommand.
    destruct (findCommand id (commands s)); [|exact Hq].
    apply sound_alter_cancel, Hq.
  - exact Hq.
  - exact Hq.
  - pose proof (commands_runCommands s) as H. unfold asyncHandler.
    rewrite H. constructor.
Qed.

(** X19: the assertions keep empty functions out of the vector: after any
    calls with callbacks that are closures of the caller or empty, and any
    drains, every pending callback can be called without an exception, and a
    drain returns normally. *)
Theorem drain_never_throws (cs : list Call) (self : nat) :
  Forall (fun c => userCall c = true) cs ->
  Forall (fun c => sound (Command.callback c) = true)
         (commands (performAll cs (SafeLibev_new self))) /\
  exists s', runCommands (performAll cs (SafeLibev_new self)) = Ok tt s'.
Proof.
  intros Hcs.
  assert (forall s0,
            Forall (fun c => sound (Command.callback c) = true) (commands s0) ->
            Forall (fun c => sound (Command.callback c) = true)
                   (commands (performAll cs s0))) as Hinv.
  { induction Hcs as [|c rest Hc _ IH]; intros s0 Hs0; [exact Hs0|].
    simpl. apply IH, perform_sound; assumption. }
  specialize (Hinv (SafeLibev_new self) ltac:(constructor)).
  split; [exact Hinv|]. unfold runCommands, drain. apply runLoop_sound, Hinv.
Qed.

Lemma drain_never_throws_witness :
  exists s',
    runCommands
      (performAll [CallRunLater NullCallback; CallRunSync (Closure 1) 9;
                   CallRunAfterTS 5 50 (Closure 2); CallCancelCommand 1]
         (SafeLibev_new 0)) = Ok tt s'.
Proof.
  apply (drain_never_throws
           [CallRunLater NullCallback; CallRunSync (Closure 1) 9;
            CallRunAfterTS 5 50 (Closure 2); CallCancelCommand 1] 0).
  repeat constructor.
Defined.

Lemma runLoop_app (l1 l2 : list Command.t) (s : SafeLibev) :
  runLoop (l1 ++ l2) s = (runLoop l1 ;; runLoop l2) s.
Proof.
  revert s. induction l1 as [|c rest IH]; intros s; [reflexivity|].
  simpl. unfold bind in *. destruct (iteration c s) as [[] s1|e s1];
    [apply IH|reflexivity].
Qed.

Lemma commands_runLoop (cmds : list Command.t) (s : SafeLibev) :
  commands (state_of (runLoop cmds s)) = commands s.
Proof. rewrite runLoop_liveCallbacks. apply invokeAll_frame. Qed.

(** X20: when the callback of a pending command throws, the drain ends
    there: the commands behind it in the vector are not called, and they are
    not put back either, the vector stays empty; what the drain did is the
    same whatever came behind the command. *)
Theorem runCommands_exception_drops_rest
    (l1 l2 : list Command.t) (c : Command.t) (e : Error)
    (s s1 s2 : SafeLibev) :
  commands s = l1 ++ c :: l2 ->
  runLoop l1 (set_commands [] s) = Ok tt s1 ->
  iteration c s1 = Fail e s2 ->
  runCommands s = Fail e s2 /\
  commands s2 = [] /\
  forall l2', runCommands (set_commands (l1 ++ c :: l2') s) = Fail e s2.
Proof.
  intros Hq Hl1 Hc.
  assert (forall l, runLoop (l1 ++ c :: l) (set_commands [] s) = Fail e s2)
    as Hrun.
  { intros l. rewrite runLoop_app. unfold bind at 1. rewrite Hl1.
    simpl. unfold bind. rewrite Hc. reflexivity. }
  split; [|split].
  - unfold runCommands, drain. rewrite Hq. apply Hrun.
  - pose proof (iteration_frame c s1) as H1. rewrite Hc in H1. simpl in H1.
    pose proof (commands_runLoop l1 (set_commands [] s)) as H2.
    rewrite Hl1 in H2. simpl in H2. congruence.
  - intros l2'. unfold runCommands, drain. apply Hrun.
Qed.

Lemma runCommands_exception_drops_rest_witness :
  runCommands emptyInside =
  Fail BadFunctionCall
    (mkSafeLibev 0 [] 4 ∅ [EvAsyncStart; EvCall 1]).
Proof.
  refine (proj1 (runCommands_exception_drops_rest
    [Command.mk (Closure 1) 1 false] [Command.mk (Closure 3) 3 false]
    (Command.mk NullCallback 2 false) BadFunctionCall emptyInside
    (mkSafeLibev 0 [] 4 ∅ [EvAsyncStart; EvCall 1])
    (mkSafeLibev 0 [] 4 ∅ [EvAsyncStart; EvCall 1]) _ _ _));
    reflexivity.
Defined.
